(** * A shallow embedding of video-playlist-manager

    The repository has three Python modules:
    - [database.py]: [YouTubeDatabase], three SQLite tables written with
      [INSERT OR REPLACE] and read with plain [SELECT]s;
    - [youtube_playlist_collector.py]: [YouTubePlaylistCollector], the
      paginated listing of playlists and playlist items;
    - [file_import_tool.py]: [FileImportTool], extraction of video ids from
      text files with two regular expressions, and their ingestion.

    Python values coming from the remote service are JSON values; Python
    exceptions are an inductive type; every method runs in a state and
    exception monad whose state is the database, the log of remote requests
    and the lines printed on stdout. *)

From Stdlib Require Import Ascii.
From stdpp Require Import base list strings gmap sets pretty.

Open Scope string_scope.
Open Scope list_scope.
Set Warnings "-register-all".

(* ------------------------------------------------------------------ *)
(** ** JSON payloads and Python values *)

(** JSON as decoded by the API client.  Numbers are integers here (the
    fields the code reads are ids, titles, positions and counts). *)
Inductive json :=
  | JNull
  | JBool (b : bool)
  | JNum (z : Z)
  | JStr (s : string)
  | JArr (l : list json)
  | JObj (l : list (string * json)).

(** Python exceptions raised by the code paths modelled.  [OutOfFuel] is
    not a Python exception: it stands for a [while True] loop that has not
    terminated within the fuel given to the model. *)
Inductive exn :=
  | KeyError (k : string)
  | TypeError (msg : string)
  | AttributeError (msg : string)
  | ValueError (msg : string)
  | ProgrammingError (msg : string)
  | HttpError (msg : string)
  | OSError (msg : string)
  | OverflowError (msg : string)
  | OutOfFuel.

Definition exn_str (e : exn) : string :=
  match e with
  | KeyError k => "'" +:+ k +:+ "'"
  | TypeError m | AttributeError m | ValueError m
  | ProgrammingError m | HttpError m | OSError m | OverflowError m => m
  | OutOfFuel => ""
  end.

(** [d.get(k)] and [d[k]] on a decoded JSON object: the decoder keeps the
    last binding of a repeated key. *)
Definition dict_get (k : string) (l : list (string * json)) : option json :=
  fold_left (fun acc kv => if String.eqb kv.1 k then Some kv.2 else acc) l None.

(** [j[k]] *)
Definition getitem (j : json) (k : string) : exn + json :=
  match j with
  | JObj l => match dict_get k l with Some v => inr v | None => inl (KeyError k) end
  | JArr _ => inl (TypeError "list indices must be integers or slices, not str")
  | JStr _ => inl (TypeError "string indices must be integers")
  | _ => inl (TypeError "object is not subscriptable")
  end.

(** [j.get(k)] *)
Definition getmethod (j : json) (k : string) : exn + json :=
  match j with
  | JObj l => inr (default JNull (dict_get k l))
  | _ => inl (AttributeError "object has no attribute 'get'")
  end.

(** Python truthiness. *)
Definition truthy (j : json) : bool :=
  match j with
  | JNull => false
  | JBool b => b
  | JNum z => negb (Z.eqb z 0)
  | JStr s => negb (String.eqb s "")
  | JArr l => negb (Nat.eqb (length l) 0)
  | JObj l => negb (Nat.eqb (length l) 0)
  end.

Fixpoint str_chars (s : string) : list json :=
  match s with
  | EmptyString => []
  | String c s' => JStr (String c EmptyString) :: str_chars s'
  end.

(** [for x in j]: a list yields its elements, a dict its keys, a string
    its characters. *)
Definition py_iter (j : json) : exn + list json :=
  match j with
  | JArr l => inr l
  | JObj l => inr (map (fun kv => JStr kv.1) l)
  | JStr s => inr (str_chars s)
  | _ => inl (TypeError "object is not iterable")
  end.

(** [j[0]] *)
Definition index0 (j : json) : exn + json :=
  match j with
  | JArr (x :: _) => inr x
  | JArr [] => inl (ValueError "list index out of range")
  | JStr (String c _) => inr (JStr (String c EmptyString))
  | JStr EmptyString => inl (ValueError "string index out of range")
  | JObj _ => inl (KeyError "0")
  | _ => inl (TypeError "object is not subscriptable")
  end.

(** [s.replace('Z', '+00:00')] *)
Fixpoint replace_Z (s : string) : string :=
  match s with
  | EmptyString => EmptyString
  | String c s' =>
      if Ascii.eqb c "Z"%char then "+00:00" +:+ replace_Z s'
      else String c (replace_Z s')
  end.

(** A [datetime] value, represented by [isoformat(" ")], the text the
    default adapter of [sqlite3] binds. *)
Record datetime := mkDatetime { dt_iso : string }.

(** Values of the normalized dictionaries: decoded JSON (with [JNull] for
    [None]) or a [datetime]. *)
Inductive pyval := PyJ (j : json) | PyDT (d : datetime).

Definition pydict := list (string * pyval).

(** [d.get(k)] on a normalized dictionary. *)
Definition pyget (d : pydict) (k : string) : pyval :=
  default (PyJ JNull)
    (fold_left (fun acc kv => if String.eqb kv.1 k then Some kv.2 else acc) d None).

Definition exn_bind {A B} (m : exn + A) (f : A -> exn + B) : exn + B :=
  match m with inl e => inl e | inr a => f a end.

Notation "x <-? m ;; k" := (exn_bind m (fun x => k))
  (at level 100, m at next level, right associativity).

(* ------------------------------------------------------------------ *)
(** ** The two link patterns of [FileImportTool.youtube_patterns]

    Each regular expression is translated into a backtracking matcher in
    continuation-passing style, one combinator per regex construct, with the
    same greedy/lazy choice order as Python's [re]. *)

(** A literal: strip the prefix [p]. *)
Fixpoint strip (p r : string) : option string :=
  match p, r with
  | EmptyString, _ => Some r
  | String c p', String d r' => if Ascii.eqb c d then strip p' r' else None
  | _, _ => None
  end.

Section Matchers.
Context {R : Type}.

(** [(?:p)?], greedy: first with [p], then without. *)
Definition opt (p : string) (k : string -> option R) (r : string) : option R :=
  match strip p r with
  | Some r' => match k r' with Some x => Some x | None => k r end
  | None => k r
  end.

(** [[a-zA-Z0-9_-]] *)
Definition id_char (c : ascii) : bool :=
  let n := nat_of_ascii c in
  (((97 <=? n) && (n <=? 122)) || ((65 <=? n) && (n <=? 90))
   || ((48 <=? n) && (n <=? 57)) || Nat.eqb n 95 || Nat.eqb n 45)%nat.

(** The greedy rest of [[a-zA-Z0-9_-]+], the captured text so far in [acc]:
    the longest run is tried first, then shorter ones. *)
Fixpoint run (k : string -> string -> option R) (acc r : string) : option R :=
  match r with
  | String c r' =>
      if id_char c then
        match run k (acc +:+ String c EmptyString) r' with
        | Some x => Some x
        | None => k acc r
        end
      else k acc r
  | EmptyString => k acc r
  end.

(** [([a-zA-Z0-9_-]+)] *)
Definition plus (k : string -> string -> option R) (r : string) : option R :=
  match r with
  | String c r' => if id_char c then run k (String c EmptyString) r' else None
  | EmptyString => None
  end.

(** [.*?], lazy: [.] matches anything but a newline. *)
Fixpoint lazy_any (k : string -> option R) (r : string) : option R :=
  match k r with
  | Some x => Some x
  | None =>
      match r with
      | String c r' => if Ascii.eqb c "010"%char then None else lazy_any k r'
      | EmptyString => None
      end
  end.

(** [https?://(?:www\.)?youtube\.com/watch\?v=([a-zA-Z0-9_-]+)] followed by
    the continuation [k]. *)
Definition url (k : string -> string -> option R) (r : string) : option R :=
  match strip "http" r with
  | None => None
  | Some r1 =>
      opt "s" (fun r2 =>
        match strip "://" r2 with
        | None => None
        | Some r3 =>
            opt "www." (fun r4 =>
              match strip "youtube.com/watch?v=" r4 with
              | None => None
              | Some r5 => plus k r5
              end) r3
        end) r1
  end.

End Matchers.

(** A pattern tried at one position: the text of group 1 and the rest of
    the line after the match. *)
Definition pattern := string -> option (string * string).

(** [r'https?://(?:www\.)?youtube\.com/watch\?v=([a-zA-Z0-9_-]+)'] *)
Definition pat_raw : pattern := url (fun g rest => Some (g, rest)).

(** [r'\[.*?\]\(https?://(?:www\.)?youtube\.com/watch\?v=([a-zA-Z0-9_-]+)\)'] *)
Definition pat_md : pattern := fun r =>
  match strip "[" r with
  | None => None
  | Some r1 =>
      lazy_any (fun r2 =>
        match strip "](" r2 with
        | None => None
        | Some r3 =>
            url (fun g rest =>
              match strip ")" rest with
              | Some rest' => Some (g, rest')
              | None => None
              end) r3
        end) r1
  end.

Definition youtube_patterns : list pattern := [pat_raw; pat_md].

(** [re.findall(pattern, line)] for a pattern with one group: scan left to
    right, on a match record group 1 and resume after the match ([skip]
    characters still to pass over), otherwise advance by one.  Neither
    pattern matches the empty string. *)
Fixpoint scan (p : pattern) (skip : nat) (s : string) : list string :=
  match s with
  | EmptyString =>
      match skip with
      | O => match p EmptyString with Some (g, _) => [g] | None => [] end
      | S _ => []
      end
  | String c s' =>
      match skip with
      | S k => scan p k s'
      | O =>
          match p s with
          | Some (g, rest) => g :: scan p (String.length s - String.length rest - 1)%nat s'
          | None => scan p 0 s'
          end
      end
  end.

Definition findall (p : pattern) (line : string) : list string := scan p 0 line.

Example findall_raw_query :
  findall pat_raw "see https://youtube.com/watch?v=dQw4w9WgXcQ&t=10s now"
  = ["dQw4w9WgXcQ"].
Proof. reflexivity. Qed.

Example findall_md_two :
  findall pat_md "[a](http://www.youtube.com/watch?v=x1) [b](https://youtube.com/watch?v=y_2)"
  = ["x1"; "y_2"].
Proof. reflexivity. Qed.

(* ------------------------------------------------------------------ *)
(** ** [database.py]: the SQLite store *)

Section Values.
Local Open Scope Z_scope.

(** *** REAL values

    A REAL value SQLite stores: a finite binary64 number
    [(-1)^neg * m * 2^e], or an infinity.  No NaN arises from the
    conversions modelled (text to number, Python [int] to integer). *)
Inductive double := DFin (neg : bool) (m : N) (e : Z) | DInf (neg : bool).

#[global] Instance double_eq_dec : EqDecision double.
Proof. solve_decision. Defined.

(** The positive rational [n / d] rounded to the nearest binary64 number,
    ties to even, with gradual underflow (the last unit is [2^-1074]) and
    overflow to infinity from [2^1024] on. *)
Definition round_binary64 (neg : bool) (n d : Z) : double :=
  if n <=? 0 then DFin neg 0 0 else
  let l0 := Z.log2 n - Z.log2 d in
  let l := if (if 0 <=? l0 then n <? d * 2 ^ l0 else n * 2 ^ (- l0) <? d)
           then l0 - 1 else l0 in
  let k := Z.max (l - 52) (-1074) in
  let num := if 0 <=? k then n else n * 2 ^ (- k) in
  let den := if 0 <=? k then d * 2 ^ k else d in
  let q := num / den in
  let q' := match Z.compare (2 * (num mod den)) den with
            | Lt => q
            | Gt => q + 1
            | Eq => if Z.odd q then q + 1 else q
            end in
  let '(q'', k') := if q' =? 2 ^ 53 then (2 ^ 52, k + 1) else (q', k) in
  if 971 <? k' then DInf neg else DFin neg (Z.to_N q'') k'.

(** The binary64 value of the decimal [(-1)^neg * D * 10^E].  The first
    two tests only shortcut the computation: [D * 10^E >= 10^401] rounds
    to infinity, and [D * 10^E < 10^-400] rounds to zero. *)
Definition decimal_to_double (neg : bool) (D : N) (E : Z) : double :=
  if (D =? 0)%N then DFin neg 0 0
  else if 400 <? E then DInf neg
  else if E + Z.of_N (N.log2 D) + 1 <? -400 then DFin neg 0 0
  else if 0 <=? E then round_binary64 neg (Z.of_N D * 10 ^ E) 1
  else round_binary64 neg (Z.of_N D) (10 ^ (- E)).

(** The exact integer value of a REAL, when it has one. *)
Definition double_int (r : double) : option Z :=
  match r with
  | DInf _ => None
  | DFin neg m e =>
      let a := if 0 <=? e then Some (Z.of_N m * 2 ^ e)
               else if Z.of_N m mod 2 ^ (- e) =? 0 then Some (Z.of_N m / 2 ^ (- e))
               else None in
      match a with
      | Some a => Some (if neg then - a else a)
      | None => None
      end
  end.

(** *** Stored values *)

Inductive sqlval := SNull | SInt (z : Z) | SText (s : string) | SReal (r : double).

(** [sqlite3VdbeIntegerAffinity]: a REAL with an integer value strictly
    between [-2^63] and [2^63 - 1] becomes that INTEGER. *)
Definition integer_affinity (r : double) : sqlval :=
  match double_int r with
  | Some z => if (- 2 ^ 63 <? z) && (z <? 2 ^ 63 - 1) then SInt z else SReal r
  | None => SReal r
  end.

(** **** Numeric literals: [sqlite3AtoF] *)

(** [sqlite3Isspace]: space, and the characters 9 to 13. *)
Definition is_space (c : ascii) : bool :=
  let n := nat_of_ascii c in (Nat.eqb n 32 || (Nat.leb 9 n && Nat.leb n 13))%bool.

Definition digit_val (c : ascii) : option N :=
  let n := nat_of_ascii c in
  if (Nat.leb 48 n && Nat.leb n 57)%bool then Some (N.of_nat (n - 48)%nat) else None.

Fixpoint skip_spaces (s : string) : string :=
  match s with
  | String c s' => if is_space c then skip_spaces s' else s
  | EmptyString => s
  end.

(** The longest prefix of decimal digits, appended to [acc]: the number of
    digits read, the new accumulator and the rest of the text. *)
Fixpoint take_digits (s : string) (n : nat) (acc : N) : nat * N * string :=
  match s with
  | String c s' =>
      match digit_val c with
      | Some v => take_digits s' (S n) (acc * 10 + v)%N
      | None => (n, acc, s)
      end
  | EmptyString => (n, acc, s)
  end.

(** An optional sign: whether it is [-], and the rest. *)
Definition take_sign (s : string) : bool * string :=
  match s with
  | String c s' =>
      if Ascii.eqb c "-"%char then (true, s')
      else if Ascii.eqb c "+"%char then (false, s')
      else (false, s)
  | EmptyString => (false, s)
  end.

(** The text [z] read by [sqlite3AtoF] when the whole of it is a number:
    spaces, a sign, digits, a point and digits, an exponent with at least
    one digit, spaces, and at least one digit before the exponent.  The
    result is [(pure, neg, D, E)] for the value [(-1)^neg * D * 10^E],
    where [pure] says that there was neither a point nor an exponent;
    [None] is a text that is not a number. *)
Definition atof (z : string) : option (bool * bool * N * Z) :=
  let '(neg, z1) := take_sign (skip_spaces z) in
  let '(n1, i, z2) := take_digits z1 0 0 in
  let '(dot, n2, D, z3) :=
    match z2 with
    | String c z' =>
        if Ascii.eqb c "."%char then
          let '(n2, D, z'') := take_digits z' 0 i in (true, n2, D, z'')
        else (false, 0%nat, i, z2)
    | EmptyString => (false, 0%nat, i, z2)
    end in
  let exponent :=
    match z3 with
    | String c z' =>
        if (Ascii.eqb c "e"%char || Ascii.eqb c "E"%char)%bool then
          let '(eneg, z'') := take_sign z' in
          let '(n3, x, z4) := take_digits z'' 0 0 in
          if Nat.eqb n3 0 then None
          else Some (true, if eneg then - Z.of_N x else Z.of_N x, z4)
        else Some (false, 0, z3)
    | EmptyString => Some (false, 0, z3)
    end in
  match exponent with
  | None => None
  | Some (ex, x, z4) =>
      if (Nat.eqb (n1 + n2)%nat 0 || negb (String.eqb (skip_spaces z4) ""))%bool then None
      else Some (negb (dot || ex), neg, D, x - Z.of_nat n2)
  end.

(** [applyNumericAffinity] with [bTryForInt] set (the NUMERIC and INTEGER
    affinities on a text): a text that is not a number stays text; an
    integer literal that fits 64 bits is that INTEGER; otherwise the REAL
    nearest to the literal, made an INTEGER when it has an integer value
    in range. *)
Definition numeric_affinity (s : string) : sqlval :=
  match atof s with
  | None => SText s
  | Some (pure, neg, D, E) =>
      let z := if neg then - Z.of_N D else Z.of_N D in
      if (pure && (- 2 ^ 63 <=? z) && (z <? 2 ^ 63))%bool then SInt z
      else integer_affinity (decimal_to_double neg D E)
  end.

(** **** Decimal renderings of a REAL *)

(** The value [m * 2^e] as a fraction [n / d]. *)
Definition double_ratio (m : N) (e : Z) : Z * Z :=
  if 0 <=? e then (Z.of_N m * 2 ^ e, 1) else (Z.of_N m, 2 ^ (- e)).

Definition ndigits (n : Z) : Z := Z.of_nat (String.length (pretty n)).

(** [floor (log10 (n / d))] for positive [n] and [d]. *)
Definition dec_exp (n d : Z) : Z :=
  let x0 := ndigits n - ndigits d in
  if (if 0 <=? x0 then n <? d * 10 ^ x0 else n * 10 ^ (- x0) <? d) then x0 - 1 else x0.

(** The positive [n / d] rounded to [p] significant digits: the digits as
    an integer of [p] digits, and the decimal exponent of the first one.
    A tie goes to the even neighbour when [half_even], else up. *)
Definition round_digits (half_even : bool) (p n d : Z) : Z * Z :=
  let x := dec_exp n d in
  let s := x - p + 1 in
  let num := if 0 <=? s then n else n * 10 ^ (- s) in
  let den := if 0 <=? s then d * 10 ^ s else d in
  let q := num / den in
  let q' := match Z.compare (2 * (num mod den)) den with
            | Lt => q
            | Gt => q + 1
            | Eq => if (half_even && negb (Z.odd q))%bool then q else q + 1
            end in
  if q' =? 10 ^ p then (10 ^ (p - 1), x + 1) else (q', x).

(** The other neighbour of [n / d] at [p] digits than [round_digits]. *)
Definition other_digits (p n d : Z) : Z * Z :=
  let '(q, x) := round_digits true p n d in
  let s := x - p + 1 in
  let below := if 0 <=? s then q * 10 ^ s * d <=? n else q * d <=? n * 10 ^ (- s) in
  if below then (if q + 1 =? 10 ^ p then (10 ^ (p - 1), x + 1) else (q + 1, x))
  else (if q =? 10 ^ (p - 1) then (10 ^ p - 1, x - 1) else (q - 1, x)).

(** Numeric equality of two REALs: the canonical form [z * 2^e] with [z]
    odd, or zero. *)
Inductive numkey := NKFin (z : Z) (e : Z) | NKInf (neg : bool).

#[global] Instance numkey_eq_dec : EqDecision numkey.
Proof. solve_decision. Defined.

Fixpoint pos_odd_part (p : positive) : positive * Z :=
  match p with
  | xO q => let '(o, t) := pos_odd_part q in (o, t + 1)
  | _ => (p, 0)
  end.

Definition num_key (z e : Z) : numkey :=
  match z with
  | Z0 => NKFin 0 0
  | Zpos p => let '(o, t) := pos_odd_part p in NKFin (Zpos o) (e + t)
  | Zneg p => let '(o, t) := pos_odd_part p in NKFin (Zneg o) (e + t)
  end.

Definition double_key (r : double) : numkey :=
  match r with
  | DFin neg m e => num_key (if neg then - Z.of_N m else Z.of_N m) e
  | DInf neg => NKInf neg
  end.

(** The shortest digits that read back as the positive REAL [m * 2^e]
    (the nearest such when two have that length), for [repr]. *)
Definition repr_digits (m : N) (e : Z) : Z * Z :=
  let '(n, d) := double_ratio m e in
  let back (c : Z * Z) (p : Z) :=
    bool_decide (double_key (decimal_to_double false (Z.to_N c.1) (c.2 - p + 1))
                 = double_key (DFin false m e)) in
  let fix go (ps : list Z) :=
    match ps with
    | [] => round_digits true 17 n d
    | p :: ps' =>
        let c := round_digits true p n d in
        if back c p then c
        else let c' := other_digits p n d in if back c' p then c' else go ps'
    end in
  go (map Z.of_nat (seq 1 17)).

Fixpoint zeros (n : nat) : string :=
  match n with O => "" | S n' => "0" +:+ zeros n' end.

(** A text of digits without its trailing zeros. *)
Fixpoint rstrip0 (s : string) : string :=
  match s with
  | EmptyString => EmptyString
  | String c s' =>
      let t := rstrip0 s' in
      if (String.eqb t "" && Ascii.eqb c "0"%char)%bool then "" else String c t
  end.

(** An exponent as [e+NN] or [e-NN], with at least two digits. *)
Definition exp_text (x : Z) : string :=
  "e" +:+ (if x <? 0 then "-" else "+") +:+
  (if Z.abs x <? 10 then "0" else "") +:+ pretty (Z.abs x).

(** [repr] of a Python [float]: the shortest round-trip digits, in
    positional notation when the decimal point falls between [-4] and
    [16] digits from the first digit, with [.0] for an integer value. *)
Definition py_float_repr (r : double) : string :=
  match r with
  | DInf neg => if neg then "-inf" else "inf"
  | DFin neg m e =>
      (if neg then "-" else "") +:+
      (if (m =? 0)%N then "0.0" else
       let '(D, x) := repr_digits m e in
       let ds := rstrip0 (pretty D) in
       let nd := String.length ds in
       let decpt := x + 1 in
       if ((decpt <=? -4) || (16 <? decpt))%bool then
         String.substring 0 1 ds +:+
         (if Nat.ltb 1 nd then "." +:+ String.substring 1 (nd - 1)%nat ds else "") +:+
         exp_text x
       else if decpt <=? 0 then "0." +:+ zeros (Z.to_nat (- decpt)) +:+ ds
       else if Nat.leb nd (Z.to_nat decpt) then ds +:+ zeros (Z.to_nat decpt - nd)%nat +:+ ".0"
       else String.substring 0 (Z.to_nat decpt) ds +:+ "." +:+
            String.substring (Z.to_nat decpt) (nd - Z.to_nat decpt)%nat ds)
  end.

(** [vdbeMemRenderNum], the text of a REAL (TEXT affinity, [CAST]):
    [sqlite3_snprintf] with ["%!.15g"], i.e. 15 significant digits rounded
    half up, trailing zeros removed but one kept after the point, the
    exponent form below [1e-4] and from [1e15] on, and [Inf] for an
    infinity. *)
Definition sqlite_real_text (r : double) : string :=
  match r with
  | DInf neg => if neg then "-Inf" else "Inf"
  | DFin neg m e =>
      if (m =? 0)%N then "0.0" else
      (if neg then "-" else "") +:+
      (let '(n, d) := double_ratio m e in
       let '(D, x) := round_digits false 15 n d in
       let ds := pretty D in
       let frac (s : string) := if String.eqb (rstrip0 s) "" then "0" else rstrip0 s in
       if ((x <? -4) || (14 <? x))%bool then
         String.substring 0 1 ds +:+ "." +:+ frac (String.substring 1 14 ds) +:+ exp_text x
       else if x <? 0 then "0." +:+ zeros (Z.to_nat (- x - 1)) +:+ rstrip0 ds
       else String.substring 0 (Z.to_nat x + 1)%nat ds +:+ "." +:+
            frac (String.substring (Z.to_nat x + 1)%nat 15 ds))
  end.

(** *** Binding and affinity *)

(** The [sqlite3] binding of the [i]-th parameter (from 1): [None] is
    NULL, [bool] and [int] are INTEGERs ([OverflowError] outside the
    signed 64-bit range), [str] is TEXT, a [datetime] goes through the
    default adapter ([isoformat(" ")], the text [dt_iso]); a list or a dict
    is refused with the parameter's number and type name. *)
Definition bind_param (i : nat) (v : pyval) : exn + sqlval :=
  match v with
  | PyJ JNull => inr SNull
  | PyJ (JBool b) => inr (SInt (if b then 1 else 0))
  | PyJ (JNum z) =>
      if ((- 2 ^ 63 <=? z) && (z <? 2 ^ 63))%bool then inr (SInt z)
      else inl (OverflowError "Python int too large to convert to SQLite INTEGER")
  | PyJ (JStr s) => inr (SText s)
  | PyJ (JArr _) =>
      inl (ProgrammingError ("Error binding parameter " +:+ pretty i +:+
                             ": type 'list' is not supported"))
  | PyJ (JObj _) =>
      inl (ProgrammingError ("Error binding parameter " +:+ pretty i +:+
                             ": type 'dict' is not supported"))
  | PyDT d => inr (SText (dt_iso d))
  end.

(** Column affinities of the schema: TEXT for the TEXT columns, NUMERIC
    for the DATETIME ones, INTEGER for the INTEGER ones. *)
Inductive affinity := AText | ADatetime | AInteger.

(** [applyAffinity] when a value is stored: TEXT renders numbers as text;
    NUMERIC and INTEGER convert a numeric text to a number and a REAL with
    an integer value to an INTEGER. *)
Definition apply_affinity (a : affinity) (v : sqlval) : sqlval :=
  match a, v with
  | AText, SInt z => SText (pretty z)
  | AText, SReal r => SText (sqlite_real_text r)
  | (ADatetime | AInteger), SText s => numeric_affinity s
  | (ADatetime | AInteger), SReal r => integer_affinity r
  | _, _ => v
  end.

End Values.

(** The three tables of [initialize_database]. *)
Inductive kind := KPlaylist | KPlaylistItem | KVideo.

Definition columns (k : kind) : list (string * affinity) :=
  match k with
  | KPlaylist =>
      [("etag", AText); ("id", AText); ("publishedAt", ADatetime);
       ("channelId", AText); ("title", AText); ("description", AText);
       ("itemCount", AInteger)]
  | KPlaylistItem =>
      [("etag", AText); ("id", AText); ("playlistId", AText);
       ("videoId", AText); ("position", AInteger)]
  | KVideo =>
      [("etag", AText); ("id", AText); ("title", AText);
       ("description", AText); ("publishedAt", ADatetime);
       ("channelId", AText); ("channelTitle", AText)]
  end.

(** A row lists its column values in schema order; a table lists its rows
    in rowid order, the order of a full table scan. *)
Abbreviation row := (list sqlval) (only parsing).
Abbreviation table := (list row) (only parsing).

(** [id] is the second column of every table. *)
Definition row_id (r : row) : sqlval := nth 1 r SNull.

(** The numeric value of an INTEGER or a REAL. *)
Definition num_of (v : sqlval) : option numkey :=
  match v with
  | SInt z => Some (num_key z 0)
  | SReal r => Some (double_key r)
  | _ => None
  end.

(** SQL [=] between stored values: NULL equals nothing, numbers compare
    by value (an INTEGER equals a REAL of the same value), texts by their
    characters, and a number never equals a text. *)
Definition sql_eq (a b : sqlval) : bool :=
  match a, b with
  | SText x, SText y => String.eqb x y
  | _, _ =>
      match num_of a, num_of b with
      | Some x, Some y => bool_decide (x = y)
      | _, _ => false
      end
  end.

(** [INSERT OR REPLACE]: the rows whose primary key equals the new one are
    deleted, then the new row is inserted with the next rowid.  A NULL key
    conflicts with nothing (SQLite accepts NULL in a non-INTEGER primary
    key). *)
Definition insert_or_replace (r : row) (t : table) : table :=
  filter (fun r' => negb (sql_eq (row_id r') (row_id r))) t ++ [r].

Record db := mkDb {
  t_playlist : table;
  t_playlist_item : table;
  t_video : table
}.

Definition get_table (k : kind) (d : db) : table :=
  match k with
  | KPlaylist => t_playlist d
  | KPlaylistItem => t_playlist_item d
  | KVideo => t_video d
  end.

Definition set_table (k : kind) (t : table) (d : db) : db :=
  match k with
  | KPlaylist => mkDb t (t_playlist_item d) (t_video d)
  | KPlaylistItem => mkDb (t_playlist d) t (t_video d)
  | KVideo => mkDb (t_playlist d) (t_playlist_item d) t
  end.

(** Requests sent to the remote service, by the [.execute()] that sends
    them. *)
Inductive request :=
  | ReqPlaylists (pageToken : json)
  | ReqPlaylistItems (playlistId : string) (pageToken : json)
  | ReqVideos (videoId : json).

(** What a run can observe: the database file, the requests sent and the
    lines printed. *)
Record world := mkWorld {
  w_db : db;
  w_log : list request;
  w_out : list string
}.

(** The state and exception monad the methods run in; an exception keeps
    the effects performed before it. *)
Definition M (A : Type) := world -> world * (exn + A).

Definition ret {A} (a : A) : M A := fun w => (w, inr a).
Definition bind {A B} (m : M A) (f : A -> M B) : M B := fun w =>
  match m w with
  | (w', inl e) => (w', inl e)
  | (w', inr a) => f a w'
  end.
Definition raise {A} (e : exn) : M A := fun w => (w, inl e).
Definition lift {A} (r : exn + A) : M A := fun w => (w, r).

Notation "x <- m ;; k" := (bind m (fun x => k))
  (at level 100, m at next level, right associativity).
Notation "m ;;; k" := (bind m (fun _ => k))
  (at level 100, right associativity).

(** [try: m except Exception as e: h(e)] *)
Definition try_except {A} (m : M A) (h : exn -> M A) : M A := fun w =>
  match m w with
  | (w', inl e) => h e w'
  | (w', inr a) => (w', inr a)
  end.

Definition print (s : string) : M unit := fun w =>
  (mkWorld (w_db w) (w_log w) (w_out w ++ [s]), inr tt).

Definition send (r : request) : M unit := fun w =>
  (mkWorld (w_db w) (w_log w ++ [r]) (w_out w), inr tt).

Definition update_db (f : db -> db) : M unit := fun w =>
  (mkWorld (f (w_db w)) (w_log w) (w_out w), inr tt).

Definition read_db {A} (f : db -> A) : M A := fun w => (w, inr (f (w_db w))).

Fixpoint mapM_exn {A B} (f : A -> exn + B) (l : list A) : exn + list B :=
  match l with
  | [] => inr []
  | x :: l' => y <-? f x ;; ys <-? mapM_exn f l' ;; inr (y :: ys)
  end.

(** The columns with their parameter numbers, from 1. *)
Definition numbered_columns (k : kind) : list (nat * (string * affinity)) :=
  zip (seq 1 (length (columns k))) (columns k).

(** The parameters of [execute]: [data.get(col)] for each column, bound in
    column order (the first failure is raised), with the column affinity
    applied to the stored value.  The affinity cannot fail, so applying it
    as each parameter is bound rather than after all of them changes
    nothing. *)
Definition bind_row (k : kind) (data : pydict) : exn + row :=
  mapM_exn (fun ica => v <-? bind_param ica.1 (pyget data ica.2.1) ;;
                       inr (apply_affinity ica.2.2 v))
    (numbered_columns k).

(** [insert_playlist], [insert_playlist_item], [insert_video]: one
    [INSERT OR REPLACE] committed on its own connection.  Connecting and
    closing have no observable effect here. *)
Definition upsert_table (k : kind) (r : row) (d : db) : db :=
  set_table k (insert_or_replace r (get_table k d)) d.

Definition upsert (k : kind) (data : pydict) : M unit :=
  r <- lift (bind_row k data) ;;
  update_db (upsert_table k r).

Definition insert_playlist := upsert KPlaylist.
Definition insert_playlist_item := upsert KPlaylistItem.
Definition insert_video := upsert KVideo.

Definition row_to_dict (k : kind) (r : row) : list (string * sqlval) :=
  zip (map fst (columns k)) r.

(** [get_playlist_items]: [SELECT * FROM playlist_item WHERE playlistId = ?]
    with no ORDER BY, answered by a scan of the table in rowid order. *)
Definition select_playlist_items (playlist_id : string) (d : db) :=
  map (row_to_dict KPlaylistItem)
    (filter (fun r => sql_eq (nth 2 r SNull) (SText playlist_id)) (t_playlist_item d)).

Definition get_playlist_items (playlist_id : string) : M (list (list (string * sqlval))) :=
  read_db (select_playlist_items playlist_id).

(** [get_video]: [SELECT * FROM video WHERE id = ?], [fetchone()]. *)
Definition select_video (video_id : string) (d : db) : option (list (string * sqlval)) :=
  match filter (fun r => sql_eq (row_id r) (SText video_id)) (t_video d) with
  | r :: _ => Some (row_to_dict KVideo r)
  | [] => None
  end.

Definition get_video (video_id : string) : M (option (list (string * sqlval))) :=
  read_db (select_video video_id).

(* ------------------------------------------------------------------ *)
(** ** The collaborators

    The remote service, [datetime.fromisoformat] and the file system are
    parameters of every method below. *)

Section Program.

(** [youtube.playlists().list(part=..., mine=True, maxResults=50,
    pageToken=tok).execute()] *)
Variable api_playlists : json -> exn + json.
(** [youtube.playlistItems().list(..., playlistId=pid, maxResults=50,
    pageToken=tok).execute()] *)
Variable api_playlist_items : string -> json -> exn + json.
(** [youtube.videos().list(part="snippet", id=vid).execute()] *)
Variable api_videos : json -> exn + json.
(** [datetime.fromisoformat]; [None] is a [ValueError]. *)
Variable fromisoformat : string -> option datetime.
(** [os.path.exists] *)
Variable path_exists : string -> bool.
(** [open(path, 'r', encoding='utf-8')] and iteration over its lines. *)
Variable read_lines : string -> exn + list string.

(* ------------------------------------------------------------------ *)
(** ** Normalization of the raw payloads *)

(** [j[a][b]] *)
Definition get2 (j : json) (a b : string) : exn + json :=
  x <-? getitem j a ;; getitem x b.

(** [datetime.fromisoformat(j.replace('Z', '+00:00'))] *)
Definition parse_published (j : json) : exn + datetime :=
  match j with
  | JStr s =>
      match fromisoformat (replace_Z s) with
      | Some d => inr d
      | None => inl (ValueError ("Invalid isoformat string: '" +:+ replace_Z s +:+ "'"))
      end
  | _ => inl (AttributeError "object has no attribute 'replace'")
  end.

(** The [playlist_data] literal of [get_all_playlists], its values
    evaluated left to right. *)
Definition normalize_playlist (item : json) : exn + pydict :=
  etag <-? getitem item "etag" ;;
  id <-? getitem item "id" ;;
  p <-? get2 item "snippet" "publishedAt" ;;
  published <-? parse_published p ;;
  channel <-? get2 item "snippet" "channelId" ;;
  title <-? get2 item "snippet" "title" ;;
  descr <-? get2 item "snippet" "description" ;;
  count <-? get2 item "contentDetails" "itemCount" ;;
  inr [("etag", PyJ etag); ("id", PyJ id); ("publishedAt", PyDT published);
       ("channelId", PyJ channel); ("title", PyJ title);
       ("description", PyJ descr); ("itemCount", PyJ count)].

(** The [playlist_item_data] literal of [get_playlist_videos]. *)
Definition normalize_playlist_item (playlist_id : string) (item : json) : exn + pydict :=
  etag <-? getitem item "etag" ;;
  id <-? getitem item "id" ;;
  vid <-? get2 item "contentDetails" "videoId" ;;
  pos <-? get2 item "snippet" "position" ;;
  inr [("etag", PyJ etag); ("id", PyJ id); ("playlistId", PyJ (JStr playlist_id));
       ("videoId", PyJ vid); ("position", PyJ pos)].

(** The [video_data] literal, the same in [get_playlist_videos] and
    [get_video_data]. *)
Definition normalize_video (item : json) : exn + pydict :=
  etag <-? getitem item "etag" ;;
  id <-? getitem item "id" ;;
  title <-? get2 item "snippet" "title" ;;
  descr <-? get2 item "snippet" "description" ;;
  p <-? get2 item "snippet" "publishedAt" ;;
  published <-? parse_published p ;;
  channel <-? get2 item "snippet" "channelId" ;;
  ctitle <-? get2 item "snippet" "channelTitle" ;;
  inr [("etag", PyJ etag); ("id", PyJ id); ("title", PyJ title);
       ("description", PyJ descr); ("publishedAt", PyDT published);
       ("channelId", PyJ channel); ("channelTitle", PyJ ctitle)].

(* ------------------------------------------------------------------ *)
(** ** [youtube_playlist_collector.py]: the paginated fetcher *)

(** [for item in items: ...], each step contributing to the list built. *)
Fixpoint for_each {A} (f : json -> M (list A)) (l : list json) : M (list A) :=
  match l with
  | [] => ret []
  | x :: l' => a <- f x ;; b <- for_each f l' ;; ret (a ++ b)
  end.

(** The [while True] loop shared by both listing methods: request the page
    of [tok], handle its items, stop when [response.get('nextPageToken')]
    is falsy. *)
Fixpoint paginate {A} (fetch : json -> M json) (handle : json -> M (list A))
    (fuel : nat) (tok : json) : M (list A) :=
  match fuel with
  | O => raise OutOfFuel
  | S fuel' =>
      response <- fetch tok ;;
      items_j <- lift (getitem response "items") ;;
      items <- lift (py_iter items_j) ;;
      found <- for_each handle items ;;
      next <- lift (getmethod response "nextPageToken") ;;
      if truthy next then
        rest <- paginate fetch handle fuel' next ;; ret (found ++ rest)
      else ret found
  end.

Definition handle_playlist (item : json) : M (list pydict) :=
  d <- lift (normalize_playlist item) ;;
  insert_playlist d ;;;
  ret [d].

(** [YouTubePlaylistCollector.get_all_playlists] *)
Definition get_all_playlists (fuel : nat) : M (list pydict) :=
  paginate (fun tok => send (ReqPlaylists tok) ;;; lift (api_playlists tok))
    handle_playlist fuel JNull.

Definition handle_playlist_item (playlist_id : string) (item : json) : M (list pydict) :=
  d <- lift (normalize_playlist_item playlist_id item) ;;
  insert_playlist_item d ;;;
  vid <- lift (get2 item "contentDetails" "videoId") ;;
  send (ReqVideos vid) ;;;
  video_response <- lift (api_videos vid) ;;
  items <- lift (getitem video_response "items") ;;
  if truthy items then
    video_item <- lift (index0 items) ;;
    vd <- lift (normalize_video video_item) ;;
    insert_video vd ;;;
    ret [vd]
  else ret [].

(** [YouTubePlaylistCollector.get_playlist_videos] *)
Definition get_playlist_videos (fuel : nat) (playlist_id : string) : M (list pydict) :=
  paginate
    (fun tok => send (ReqPlaylistItems playlist_id tok) ;;;
                lift (api_playlist_items playlist_id tok))
    (handle_playlist_item playlist_id) fuel JNull.

(* ------------------------------------------------------------------ *)
(** ** [file_import_tool.py]: the reference extractor and reconciler *)

(** The lines of one file scanned with every pattern into [video_ids]. *)
Definition ids_of_line (ids : gset string) (line : string) : gset string :=
  foldl (fun acc p => acc ∪ list_to_set (findall p line)) ids youtube_patterns.

(** [FileImportTool.extract_video_ids] *)
Definition extract_video_ids (file_path : string) : M (gset string) :=
  if path_exists file_path then
    try_except
      (lines <- lift (read_lines file_path) ;;
       ret (foldl ids_of_line ∅ lines))
      (fun e => print ("Error reading file " +:+ file_path +:+ ": " +:+ exn_str e) ;;;
                ret ∅)
  else
    print ("Error: File not found: " +:+ file_path) ;;; ret ∅.

(** [FileImportTool.get_video_data] *)
Definition get_video_data (video_id : string) : M (option pydict) :=
  try_except
    (send (ReqVideos (JStr video_id)) ;;;
     video_response <- lift (api_videos (JStr video_id)) ;;
     items <- lift (getitem video_response "items") ;;
     if truthy items then
       video_item <- lift (index0 items) ;;
       vd <- lift (normalize_video video_item) ;;
       ret (Some vd)
     else
       print ("Video with ID " +:+ video_id +:+ " not found on YouTube") ;;;
       ret None)
    (fun e => print ("Error fetching video data for ID " +:+ video_id +:+ ": " +:+ exn_str e) ;;;
              ret None).

(** The loop of [process_file] over the extracted ids, in the set's
    iteration order.  A row returned by [get_video] and a normalized
    [video_data] are non-empty dicts, hence truthy. *)
Fixpoint process_ids (ids : list string) : M (list pydict) :=
  match ids with
  | [] => ret []
  | video_id :: rest =>
      existing <- get_video video_id ;;
      added <- match existing with
               | Some _ => ret []
               | None =>
                   print ("Fetching new video data for ID: " +:+ video_id) ;;;
                   vd <- get_video_data video_id ;;
                   match vd with
                   | Some d => insert_video d ;;; ret [d]
                   | None => ret []
                   end
               end ;;
      others <- process_ids rest ;;
      ret (added ++ others)
  end.



End Program.

(* ------------------------------------------------------------------ *)
(** ** [database.py]: reading the playlists back *)

(** [YouTubeDatabase.get_all_playlists]: [SELECT * FROM playlist], every
    row, in scan order, as [dict(zip(columns, row))].  The collector's
    method of the same name is [get_all_playlists] above. *)
Definition select_all_playlists (d : db) : list (list (string * sqlval)) :=
  map (row_to_dict KPlaylist) (t_playlist d).

Definition db_get_all_playlists : M (list (list (string * sqlval))) :=
  read_db select_all_playlists.

(** [row[key]] on a dict read back from the store. *)
Definition dict_item (r : list (string * sqlval)) (key : string) : exn + sqlval :=
  match fold_left (fun acc kv => if String.eqb kv.1 key then Some kv.2 else acc) r None with
  | Some v => inr v
  | None => inl (KeyError key)
  end.

(** [get_playlist_items] and [get_video] called with a value read back
    from the store ([None], an [int] or a [str]): the parameter has no
    affinity, so the TEXT affinity of the compared column is applied to
    it. *)
Definition select_playlist_items_by (p : sqlval) (d : db) :=
  map (row_to_dict KPlaylistItem)
    (filter (fun r => sql_eq (nth 2 r SNull) (apply_affinity AText p)) (t_playlist_item d)).

Definition select_video_by (p : sqlval) (d : db) : option (list (string * sqlval)) :=
  match filter (fun r => sql_eq (row_id r) (apply_affinity AText p)) (t_video d) with
  | r :: _ => Some (row_to_dict KVideo r)
  | [] => None
  end.

(* ------------------------------------------------------------------ *)
(** ** [youtube_playlist_collector.py]: [print_playlist_data] *)

(** [f"{v}"] of a value read back from the store. *)
Definition sql_str (v : sqlval) : string :=
  match v with
  | SNull => "None"
  | SInt z => pretty z
  | SText s => s
  | SReal r => py_float_repr r
  end.

(** [s * n] *)
Fixpoint str_repeat (n : nat) (s : string) : string :=
  match n with
  | O => EmptyString
  | S n' => s +:+ str_repeat n' s
  end.

Definition newline : string := String "010"%char EmptyString.

(** [for x in l: f(x)] *)
Fixpoint for_in {A} (f : A -> M unit) (l : list A) : M unit :=
  match l with
  | [] => ret tt
  | x :: l' => f x ;;; for_in f l'
  end.

(** The body of the inner loop; a dict is truthy when it is non-empty. *)
Definition print_item (item : list (string * sqlval)) : M unit :=
  vid <- lift (dict_item item "videoId") ;;
  video <- read_db (select_video_by vid) ;;
  match video with
  | Some ((_ :: _) as v) =>
      pos <- lift (dict_item item "position") ;;
      title <- lift (dict_item v "title") ;;
      print ("Position " +:+ sql_str pos +:+ ": " +:+ sql_str title) ;;;
      id <- lift (dict_item v "id") ;;
      print ("Video ID: " +:+ sql_str id) ;;;
      channel <- lift (dict_item v "channelTitle") ;;
      print ("Channel: " +:+ sql_str channel) ;;;
      print (str_repeat 20 "-")
  | _ => ret tt
  end.

(** The body of the outer loop. *)
Definition print_playlist (playlist : list (string * sqlval)) : M unit :=
  title <- lift (dict_item playlist "title") ;;
  print (newline +:+ "Playlist: " +:+ sql_str title) ;;;
  descr <- lift (dict_item playlist "description") ;;
  print ("Description: " +:+ sql_str descr) ;;;
  count <- lift (dict_item playlist "itemCount") ;;
  print ("Total videos: " +:+ sql_str count) ;;;
  print (str_repeat 30 "-") ;;;
  pid <- lift (dict_item playlist "id") ;;
  playlist_items <- read_db (select_playlist_items_by pid) ;;
  for_in print_item playlist_items.

(** [YouTubePlaylistCollector.print_playlist_data] *)
Definition print_playlist_data : M unit :=
  playlists <- db_get_all_playlists ;;
  print (newline +:+ "Found " +:+ pretty (length playlists) +:+ " playlists:") ;;;
  print (str_repeat 50 "-") ;;;
  for_in print_playlist playlists.

(* ------------------------------------------------------------------ *)
(** ** [file_import_tool.py]: [main] *)

Section Entry.

Variable api_videos : json -> exn + json.
Variable fromisoformat : string -> option datetime.
Variable path_exists : string -> bool.
Variable read_lines : string -> exn + list string.
(** Python's [str()] of a field of a normalized record, as an f-string
    formats it. *)
Variable py_str : pyval -> string.




End Entry.

(* ================================================================== *)
(** * Properties *)

(* ------------------------------------------------------------------ *)
(** ** Reference extraction *)

(** Every character of [s] is in [[a-zA-Z0-9_-]]. *)
Fixpoint all_id_chars (s : string) : bool :=
  match s with
  | EmptyString => true
  | String c s' => id_char c && all_id_chars s'
  end.

(** What group 1 of either pattern can capture. *)
Definition video_id_shape (s : string) : Prop :=
  s <> EmptyString /\ all_id_chars s = true.

Lemma str_app_nil_l (s : string) : EmptyString +:+ s = s.
Proof. reflexivity. Qed.

Lemma str_app_cons c (s t : string) : String c s +:+ t = String c (s +:+ t).
Proof. reflexivity. Qed.

Lemma str_app_nil_r (s : string) : s +:+ EmptyString = s.
Proof. induction s as [|c s IH]; [reflexivity|]. rewrite str_app_cons. congruence. Qed.

Lemma str_app_assoc (a b c : string) : a +:+ (b +:+ c) = (a +:+ b) +:+ c.
Proof. induction a as [|x a IH]; [reflexivity|]. rewrite !str_app_cons. congruence. Qed.

Lemma all_id_chars_app a b :
  all_id_chars (a +:+ b) = all_id_chars a && all_id_chars b.
Proof.
  induction a as [|c a IH]; [reflexivity|].
  rewrite str_app_cons. simpl. rewrite IH.
  destruct (id_char c), (all_id_chars a); reflexivity.
Qed.

Lemma opt_some {R} p (k : string -> option R) r x :
  opt p k r = Some x -> exists r', k r' = Some x.
Proof.
  unfold opt. destruct (strip p r) as [r'|]; [|eauto].
  destruct (k r') eqn:E; intros H; [inversion H; subst; eauto|eauto].
Qed.

Lemma lazy_any_some {R} (k : string -> option R) r x :
  lazy_any k r = Some x -> exists r', k r' = Some x.
Proof.
  induction r as [|c r IH]; simpl.
  - destruct (k EmptyString) eqn:E; intros H; [inversion H; subst; eauto|discriminate].
  - destruct (k (String c r)) eqn:E; intros H; [inversion H; subst; eauto|].
    destruct (Ascii.eqb c "010"%char); [discriminate|auto].
Qed.

Lemma run_some {R} (k : string -> string -> option R) acc r x :
  run k acc r = Some x ->
  exists w r', k (acc +:+ w) r' = Some x /\ all_id_chars w = true.
Proof.
  revert acc. induction r as [|c r IH]; intros acc; simpl.
  - intros H. exists EmptyString, EmptyString. rewrite str_app_nil_r. auto.
  - destruct (id_char c) eqn:Ec.
    + destruct (run k (acc +:+ String c EmptyString) r) eqn:E.
      * intros H. inversion H; subst.
        destruct (IH _ E) as (w & r' & Hk & Hw).
        exists (String c w), r'. rewrite <- str_app_assoc, str_app_cons in Hk.
        simpl. rewrite Ec, Hw. auto.
      * intros H. exists EmptyString, (String c r). rewrite str_app_nil_r. auto.
    + intros H. exists EmptyString, (String c r). rewrite str_app_nil_r. auto.
Qed.

Lemma plus_some {R} (k : string -> string -> option R) r x :
  plus k r = Some x -> exists g r', k g r' = Some x /\ video_id_shape g.
Proof.
  unfold plus. destruct r as [|c r]; [discriminate|].
  destruct (id_char c) eqn:Ec; [|discriminate].
  intros H. destruct (run_some _ _ _ _ H) as (w & r' & Hk & Hw).
  exists (String c EmptyString +:+ w), r'. split; [exact Hk|].
  rewrite str_app_cons, str_app_nil_l. split; [discriminate|]. simpl. rewrite Ec, Hw. reflexivity.
Qed.

Lemma url_some {R} (k : string -> string -> option R) r x :
  url k r = Some x -> exists g r', k g r' = Some x /\ video_id_shape g.
Proof.
  unfold url. destruct (strip "http" r) as [r1|]; [|discriminate].
  intros H. destruct (opt_some _ _ _ _ H) as (r2 & H2).
  destruct (strip "://" r2) as [r3|]; [|discriminate].
  destruct (opt_some _ _ _ _ H2) as (r4 & H4).
  destruct (strip "youtube.com/watch?v=" r4) as [r5|]; [|discriminate].
  exact (plus_some _ _ _ H4).
Qed.

Lemma pat_raw_shape r g rest : pat_raw r = Some (g, rest) -> video_id_shape g.
Proof.
  unfold pat_raw. intros H. destruct (url_some _ _ _ H) as (g' & r' & Hk & Hg).
  inversion Hk; subst. exact Hg.
Qed.

Lemma pat_md_shape r g rest : pat_md r = Some (g, rest) -> video_id_shape g.
Proof.
  unfold pat_md. destruct (strip "[" r) as [r1|]; [|discriminate].
  intros H. destruct (lazy_any_some _ _ _ H) as (r2 & H2).
  destruct (strip "](" r2) as [r3|]; [|discriminate].
  destruct (url_some _ _ _ H2) as (g' & r' & Hk & Hg).
  destruct (strip ")" r'); inversion Hk; subst. exact Hg.
Qed.

Lemma scan_shape (p : pattern) :
  (forall r g rest, p r = Some (g, rest) -> video_id_shape g) ->
  forall s skip x, x ∈ scan p skip s -> video_id_shape x.
Proof.
  intros Hp s. induction s as [|c s IH]; intros skip x; simpl.
  - destruct skip; [|intros Hx; inversion Hx].
    destruct (p EmptyString) as [[g rest]|] eqn:E; intros Hx; [|inversion Hx].
    apply list_elem_of_singleton in Hx. subst. eauto.
  - destruct skip as [|k]; [|apply IH].
    destruct (p (String c s)) as [[g rest]|] eqn:E; [|apply IH].
    intros Hx. apply elem_of_cons in Hx as [->|Hx]; [eauto|eapply IH; eauto].
Qed.

Lemma youtube_patterns_shape :
  forall p, p ∈ youtube_patterns ->
  forall line x, x ∈ findall p line -> video_id_shape x.
Proof.
  intros p Hp line x. unfold youtube_patterns in Hp.
  repeat (apply elem_of_cons in Hp as [->|Hp]);
    [apply scan_shape; exact pat_raw_shape
    |apply scan_shape; exact pat_md_shape
    |inversion Hp].
Qed.

Lemma elem_of_ids_of_line (S : gset string) line x :
  x ∈ ids_of_line S line <->
  x ∈ S \/ x ∈ findall pat_raw line \/ x ∈ findall pat_md line.
Proof.
  unfold ids_of_line, youtube_patterns. simpl.
  rewrite !elem_of_union, !elem_of_list_to_set. tauto.
Qed.

Lemma elem_of_foldl_ids_of_line lines (S : gset string) x :
  x ∈ foldl ids_of_line S lines <->
  x ∈ S \/ exists line, line ∈ lines /\
                       (x ∈ findall pat_raw line \/ x ∈ findall pat_md line).
Proof.
  revert S. induction lines as [|line lines IH]; intros S; simpl.
  - split; [auto|]. intros [H|(l & Hl & _)]; [exact H|inversion Hl].
  - rewrite IH, elem_of_ids_of_line. split.
    + intros [[H|H]|(l & Hl & Hx)]; [auto| |].
      * right. exists line. split; [left|]; auto.
      * right. exists l. split; [right|]; auto.
    + intros [H|(l & Hl & Hx)]; [auto|].
      apply elem_of_cons in Hl as [->|Hl]; [tauto|].
      right. exists l. auto.
Qed.

Lemma extract_video_ids_read pe rl path lines w :
  pe path = true -> rl path = inr lines ->
  extract_video_ids pe rl path w = (w, inr (foldl ids_of_line ∅ lines)).
Proof.
  intros He Hr. unfold extract_video_ids. rewrite He.
  unfold try_except, bind, lift, ret. rewrite Hr. reflexivity.
Qed.

(** The line of the spec's example, as Python iterates it (with its
    newline). *)
Definition both_forms_line : string :=
  "https://www.youtube.com/watch?v=ABC123 [Title](https://www.youtube.com/watch?v=ABC123)"
  +:+ String "010"%char EmptyString.

(** C8: both patterns are applied to every line and their matches merged
    into one set, so an id is in the result exactly when some line yields
    it under either pattern, however many times; the spec's example line
    carrying the id as a bare link and as a markdown link yields the
    single id [ABC123]. *)
Theorem extract_video_ids_merges_patterns pe rl path lines w :
  pe path = true -> rl path = inr lines ->
  exists ids,
    extract_video_ids pe rl path w = (w, inr ids) /\
    (forall x, x ∈ ids <->
       exists line, line ∈ lines /\
                    (x ∈ findall pat_raw line \/ x ∈ findall pat_md line)) /\
    (lines = [both_forms_line] -> ids = {[ "ABC123" ]}).
Proof.
  intros He Hr. exists (foldl ids_of_line ∅ lines).
  split; [exact (extract_video_ids_read pe rl path lines w He Hr)|].
  split.
  - intros x. rewrite elem_of_foldl_ids_of_line. set_solver.
  - intros ->. vm_compute. reflexivity.
Qed.

Lemma extract_video_ids_merges_patterns_witness :
  let pe := fun _ : string => true in
  let rl := fun _ : string => inr [both_forms_line] : exn + list string in
  pe "notes.md" = true /\ rl "notes.md" = inr [both_forms_line] /\
  exists ids,
    extract_video_ids pe rl "notes.md" (mkWorld (mkDb [] [] []) [] []) =
      (mkWorld (mkDb [] [] []) [] [], inr ids) /\
    (forall x, x ∈ ids <->
       exists line, line ∈ [both_forms_line] /\
                    (x ∈ findall pat_raw line \/ x ∈ findall pat_md line)) /\
    ([both_forms_line] = [both_forms_line] -> ids = {[ "ABC123" ]}).
Proof.
  intros pe rl. split; [reflexivity|]. split; [reflexivity|].
  apply (extract_video_ids_merges_patterns pe rl "notes.md" [both_forms_line]);
    reflexivity.
Defined.

(** C9: a missing file, or one whose contents cannot be read, gives the
    empty set and one printed diagnostic naming the path; no exception
    leaves [extract_video_ids] and nothing else changes. *)
Theorem extract_video_ids_missing_or_unreadable pe rl path w :
  (pe path = false \/ exists e, rl path = inl e) ->
  exists msg pre post,
    extract_video_ids pe rl path w =
      (mkWorld (w_db w) (w_log w) (w_out w ++ [msg]), inr ∅) /\
    msg = pre +:+ path +:+ post /\ pre <> EmptyString.
Proof.
  intros H. unfold extract_video_ids.
  destruct (pe path) eqn:He.
  - destruct H as [H|(e & Hr)]; [discriminate|].
    unfold try_except, bind, lift, ret, print. rewrite Hr.
    exists ("Error reading file " +:+ path +:+ ": " +:+ exn_str e),
           "Error reading file ", (": " +:+ exn_str e).
    split; [reflexivity|]. split; [reflexivity|discriminate].
  - exists ("Error: File not found: " +:+ path), "Error: File not found: ", EmptyString.
    split; [reflexivity|]. split; [by rewrite str_app_nil_r|discriminate].
Qed.

Lemma extract_video_ids_missing_or_unreadable_witness :
  let pe := fun p : string => String.eqb p "present.txt" in
  let rl := fun _ : string => inl (OSError "Permission denied") : exn + list string in
  (pe "absent.txt" = false \/ exists e, rl "absent.txt" = inl e) /\
  exists msg pre post,
    extract_video_ids pe rl "absent.txt" (mkWorld (mkDb [] [] []) [] []) =
      (mkWorld (mkDb [] [] []) [] ([] ++ [msg]), inr ∅) /\
    msg = pre +:+ "absent.txt" +:+ post /\ pre <> EmptyString.
Proof.
  intros pe rl. split; [left; reflexivity|].
  apply (extract_video_ids_missing_or_unreadable pe rl "absent.txt"
           (mkWorld (mkDb [] [] []) [] [])).
  left. reflexivity.
Defined.

(** C10: every id [extract_video_ids] returns is a non-empty string of
    ASCII letters, digits, [_] and [-]; a query parameter such as [&t=10s]
    cannot be part of it. *)
Theorem extract_video_ids_id_shape pe rl path w :
  exists ids, (extract_video_ids pe rl path w).2 = inr ids /\
              forall x, x ∈ ids -> video_id_shape x.
Proof.
  unfold extract_video_ids. destruct (pe path).
  - unfold try_except, bind, lift, ret, print. destruct (rl path) as [e|lines].
    + exists ∅. split; [reflexivity|]. set_solver.
    + exists (foldl ids_of_line ∅ lines). split; [reflexivity|].
      intros x Hx. apply elem_of_foldl_ids_of_line in Hx as [Hx|(l & _ & Hx)];
        [set_solver|].
      destruct Hx as [Hx|Hx]; eapply youtube_patterns_shape; eauto;
        unfold youtube_patterns; set_solver.
  - exists ∅. split; [reflexivity|]. set_solver.
Qed.

Example extract_video_ids_drops_query :
  (extract_video_ids (fun _ => true)
     (fun _ => inr ["https://www.youtube.com/watch?v=ABC123&t=10s"]) "f"
     (mkWorld (mkDb [] [] []) [] [])).2 = inr {[ "ABC123" ]}.
Proof. vm_compute. reflexivity. Qed.

(* ------------------------------------------------------------------ *)
(** ** The store *)

Lemma sql_eq_true a b :
  sql_eq a b = true <->
  (exists s, a = SText s /\ b = SText s) \/ (exists x, num_of a = Some x /\ num_of b = Some x).
Proof.
  destruct a, b; cbn [sql_eq num_of]; rewrite ?String.eqb_eq, ?bool_decide_eq_true;
    (split; [|intros [(? & ? & ?) | (? & ? & ?)]; congruence]);
    try (intros Hf; discriminate Hf); intros E; rewrite ?E;
    first [solve [left; eauto] | solve [right; eauto]].
Qed.

(** Equality with a text is equality of the values. *)
Lemma sql_eq_text_r a s : sql_eq a (SText s) = true <-> a = SText s.
Proof.
  rewrite sql_eq_true. split.
  - intros [(s' & -> & H) | (x & _ & H)]; [congruence | discriminate H].
  - intros ->. left. eauto.
Qed.

Lemma sql_eq_refl a : a <> SNull -> sql_eq a a = true.
Proof.
  intros H. apply sql_eq_true. destruct a; cbn [num_of]; [congruence| | |];
    first [solve [left; eauto] | solve [right; eauto]].
Qed.

Lemma mapM_exn_Forall2 {A B} (f : A -> exn + B) l ys :
  mapM_exn f l = inr ys <-> Forall2 (fun x y => f x = inr y) l ys.
Proof.
  revert ys. induction l as [|x l IH]; intros ys; simpl.
  - split; [intros H; inversion H; constructor|intros H; inversion H; reflexivity].
  - unfold exn_bind. destruct (f x) as [e|y] eqn:Ef.
    + split; [discriminate|]. intros H. inversion H; subst. congruence.
    + destruct (mapM_exn f l) as [e|zs] eqn:El.
      * split; [discriminate|]. intros H. inversion H; subst.
        apply IH in H4. congruence.
      * split.
        -- intros H. inversion H; subst. constructor; [exact Ef|]. apply IH. reflexivity.
        -- intros H. inversion H; subst. apply IH in H4. inversion H4; subst.
           congruence.
Qed.

Lemma numbered_columns_lookup k i :
  numbered_columns k !! i = (ca ← columns k !! i; Some (S i, ca)).
Proof.
  unfold numbered_columns. rewrite lookup_zip_with.
  destruct (columns k !! i) as [ca|] eqn:E.
  - rewrite lookup_seq_lt by (apply lookup_lt_Some in E; lia). reflexivity.
  - destruct (seq 1 (length (columns k)) !! i); reflexivity.
Qed.

(** The [i]-th column of a bound row is its field bound as parameter
    [i + 1], with the column's affinity. *)
Lemma bind_row_lookup k d r i c a :
  bind_row k d = inr r -> columns k !! i = Some (c, a) ->
  exists v, bind_param (S i) (pyget d c) = inr v /\ r !! i = Some (apply_affinity a v).
Proof.
  unfold bind_row. rewrite mapM_exn_Forall2. intros H Hi.
  assert (Hn : numbered_columns k !! i = Some (S i, (c, a)))
    by (rewrite numbered_columns_lookup, Hi; reflexivity).
  destruct (Forall2_lookup_l _ _ _ _ _ H Hn) as (y & Hy & Hf). cbn [fst snd] in Hf.
  unfold exn_bind in Hf. destruct (bind_param (S i) (pyget d c)) as [e|v]; [discriminate|].
  inversion Hf; subst. eauto.
Qed.

(** The [id] column of a bound row is [data.get('id')], bound as the
    second parameter, with TEXT affinity. *)
Lemma bind_row_id k d r :
  bind_row k d = inr r ->
  exists v, bind_param 2 (pyget d "id") = inr v /\ row_id r = apply_affinity AText v.
Proof.
  intros H. destruct (bind_row_lookup k d r 1 "id" AText H) as (v & Hv & Hr);
    [by destruct k|].
  exists v. split; [exact Hv|]. unfold row_id. by rewrite (nth_lookup_Some r 1 SNull _ Hr).
Qed.

Lemma bind_param_null i p : bind_param i p = inr SNull -> p = PyJ JNull.
Proof.
  destruct p as [[| | z | | |]|]; cbn [bind_param]; try case_match; congruence.
Qed.

Lemma bind_row_id_not_null k d r :
  bind_row k d = inr r -> pyget d "id" <> PyJ JNull -> row_id r <> SNull.
Proof.
  intros Hb Hid. destruct (bind_row_id k d r Hb) as (v & Hv & ->).
  destruct v; cbn; try discriminate. apply bind_param_null in Hv. congruence.
Qed.

(** A non-NULL id of a bound row is a text (TEXT affinity). *)
Lemma bind_row_id_text k d r :
  bind_row k d = inr r -> row_id r <> SNull -> exists s, row_id r = SText s.
Proof.
  intros Hb Hn. destruct (bind_row_id k d r Hb) as (v & _ & Hr). rewrite Hr in Hn |- *.
  destruct v; cbn in *; eauto; congruence.
Qed.

Lemma get_set_table k t d : get_table k (set_table k t d) = t.
Proof. destruct k; reflexivity. Qed.

Lemma get_set_table_other k k' t d : k' <> k -> get_table k' (set_table k t d) = get_table k' d.
Proof. destruct k, k'; simpl; congruence. Qed.

Lemma set_set_table k t t' d : set_table k t (set_table k t' d) = set_table k t d.
Proof. destruct k; reflexivity. Qed.

Lemma list_filter_False {A} (l : list A) : filter (fun _ => False) l = [].
Proof. induction l as [|x l IH]; [reflexivity|]. rewrite filter_cons_False; auto. Qed.

Lemma insert_or_replace_idem r t :
  row_id r <> SNull -> insert_or_replace r (insert_or_replace r t) = insert_or_replace r t.
Proof.
  intros Hr. unfold insert_or_replace.
  rewrite filter_app, list_filter_filter_r by auto.
  rewrite filter_cons_False; [by rewrite app_nil_r|].
  rewrite sql_eq_refl by exact Hr. simpl. auto.
Qed.

Lemma sql_eq_sym a b : sql_eq a b = sql_eq b a.
Proof.
  destruct (sql_eq a b) eqn:E1, (sql_eq b a) eqn:E2; try reflexivity;
    [apply sql_eq_true in E1 | apply sql_eq_true in E2];
    [rewrite <- E2 | rewrite <- E1];
    first [apply sql_eq_true | symmetry; apply sql_eq_true]; naive_solver.
Qed.

Lemma sql_eq_trans a b c : sql_eq a b = true -> sql_eq b c = true -> sql_eq a c = true.
Proof.
  rewrite !sql_eq_true.
  intros [(s & -> & ->) | (x & Ha & Hb)] [(s' & Hb' & ->) | (y & Hb' & Hc)].
  - left. exists s'. split; congruence.
  - discriminate Hb'.
  - subst b. discriminate Hb.
  - right. exists x. split; congruence.
Qed.

Lemma filter_key_insert_or_replace r t key :
  filter (fun r' => sql_eq (row_id r') key) (insert_or_replace r t) =
  if sql_eq (row_id r) key then [r]
  else filter (fun r' => sql_eq (row_id r') key) t.
Proof.
  unfold insert_or_replace. rewrite filter_app, list_filter_filter.
  destruct (sql_eq (row_id r) key) eqn:E.
  - rewrite filter_cons_True by (rewrite E; exact I).
    rewrite (list_filter_iff _ (fun _ => False)); [by rewrite list_filter_False|].
    intros x. destruct (sql_eq (row_id x) key) eqn:Ex; simpl; [|tauto].
    rewrite (sql_eq_trans (row_id x) key (row_id r)); [simpl; tauto|exact Ex|].
    by rewrite sql_eq_sym.
  - rewrite filter_cons_False by (rewrite E; auto).
    rewrite app_nil_r. apply list_filter_iff. intros x.
    destruct (sql_eq (row_id x) key) eqn:Ex; simpl; [|tauto].
    destruct (sql_eq (row_id x) (row_id r)) eqn:Exr; simpl; [|tauto].
    rewrite sql_eq_sym in Exr.
    rewrite (sql_eq_trans _ _ _ Exr Ex) in E. discriminate.
Qed.

Definition empty_world : world := mkWorld (mkDb [] [] []) [] [].

Lemma upsert_ok k d r w :
  bind_row k d = inr r ->
  upsert k d w = (mkWorld (upsert_table k r (w_db w)) (w_log w) (w_out w), inr tt).
Proof. intros Hb. unfold upsert, bind, lift, update_db. by rewrite Hb. Qed.

Lemma upsert_fail k d e w :
  bind_row k d = inl e -> upsert k d w = (w, inl e).
Proof. intros Hb. unfold upsert, bind, lift. by rewrite Hb. Qed.

(** C2 (as amended): an upsert of a record whose fields bind and whose id
    is not [None] succeeds whatever the store holds, in particular when the
    id is already stored; afterwards the only row with that id is the row
    built from the new record alone, the rows of other ids and the other
    tables are unchanged. *)
Theorem upsert_replaces_row k d r w :
  bind_row k d = inr r -> pyget d "id" <> PyJ JNull ->
  upsert k d w = (mkWorld (upsert_table k r (w_db w)) (w_log w) (w_out w), inr tt) /\
  filter (fun r' => sql_eq (row_id r') (row_id r))
    (get_table k (upsert_table k r (w_db w))) = [r] /\
  (forall r', sql_eq (row_id r') (row_id r) = false ->
     r' ∈ get_table k (upsert_table k r (w_db w)) <-> r' ∈ get_table k (w_db w)) /\
  (forall k', k' <> k ->
     get_table k' (upsert_table k r (w_db w)) = get_table k' (w_db w)).
Proof.
  intros Hb Hid. pose proof (bind_row_id_not_null k d r Hb Hid) as Hnn.
  split; [exact (upsert_ok k d r w Hb)|].
  unfold upsert_table. rewrite get_set_table. split; [|split].
  - rewrite filter_key_insert_or_replace, sql_eq_refl by exact Hnn. reflexivity.
  - intros r' Hr'. unfold insert_or_replace.
    rewrite elem_of_app, list_elem_of_filter, list_elem_of_singleton. split.
    + intros [[_ H] | ->]; [exact H|]. rewrite sql_eq_refl in Hr' by exact Hnn.
      discriminate.
    + intros H. left. split; [|exact H]. rewrite Hr'. exact I.
  - intros k' Hk'. by apply get_set_table_other.
Qed.

(** A video record whose id is already stored with other contents. *)
Definition video_v1 (title : string) : pydict :=
  [("etag", PyJ (JStr "tag")); ("id", PyJ (JStr "v1")); ("title", PyJ (JStr title));
   ("description", PyJ (JStr "")); ("publishedAt", PyDT (mkDatetime "2024-01-01 00:00:00+00:00"));
   ("channelId", PyJ (JStr "ch")); ("channelTitle", PyJ (JStr "Channel"))].

Definition world_with_v1 : world := (insert_video (video_v1 "old") empty_world).1.

Lemma upsert_replaces_row_witness :
  exists r,
  bind_row KVideo (video_v1 "new") = inr r /\ pyget (video_v1 "new") "id" <> PyJ JNull /\
  upsert KVideo (video_v1 "new") world_with_v1 =
    (mkWorld (upsert_table KVideo r (w_db world_with_v1)) (w_log world_with_v1)
       (w_out world_with_v1), inr tt) /\
  filter (fun r' => sql_eq (row_id r') (row_id r))
    (get_table KVideo (upsert_table KVideo r (w_db world_with_v1))) = [r] /\
  (forall r', sql_eq (row_id r') (row_id r) = false ->
     r' ∈ get_table KVideo (upsert_table KVideo r (w_db world_with_v1)) <->
     r' ∈ get_table KVideo (w_db world_with_v1)) /\
  (forall k', k' <> KVideo ->
     get_table k' (upsert_table KVideo r (w_db world_with_v1)) =
     get_table k' (w_db world_with_v1)).
Proof.
  eexists. split; [vm_compute; reflexivity|]. split; [discriminate|].
  apply upsert_replaces_row; [vm_compute; reflexivity|discriminate].
Defined.

(** A record whose id is [None]: the row stored before is kept next to
    the new one, with its old field values. *)
Definition video_no_id (title : string) : pydict := [("title", PyJ (JStr title))].

(** The record of [v1] with an [int] title beyond 64 bits. *)
Definition video_v1_big_title : pydict :=
  [("etag", PyJ (JStr "tag")); ("id", PyJ (JStr "v1")); ("title", PyJ (JNum (2 ^ 63)%Z))].

(** Two records for which the upsert does not replace the row: a record
    whose id is [None] is added next to the prior row; a record of the
    stored id [v1] whose title does not bind raises [OverflowError] and
    leaves the prior row in place. *)
Lemma upsert_null_id_or_unbindable_keeps_prior_row :
  t_video (w_db (insert_video (video_no_id "new")
                   (insert_video (video_no_id "old") empty_world).1).1) =
  [[SNull; SNull; SText "old"; SNull; SNull; SNull; SNull];
   [SNull; SNull; SText "new"; SNull; SNull; SNull; SNull]] /\
  insert_video video_v1_big_title world_with_v1 =
    (world_with_v1, inl (OverflowError "Python int too large to convert to SQLite INTEGER")).
Proof. split; vm_compute; reflexivity. Qed.

(** C3 (as amended): upserting the same record twice in a row has the
    effect of upserting it once, for a record whose id is not [None]. *)
Theorem upsert_twice_is_once k d w :
  pyget d "id" <> PyJ JNull ->
  (upsert k d ;;; upsert k d) w = upsert k d w.
Proof.
  intros Hid. destruct (bind_row k d) as [e|r] eqn:Hb.
  - unfold bind. rewrite !(upsert_fail k d e) by exact Hb. reflexivity.
  - unfold bind. rewrite !(upsert_ok k d r) by exact Hb. simpl.
    unfold upsert_table. rewrite get_set_table, set_set_table.
    rewrite insert_or_replace_idem by exact (bind_row_id_not_null k d r Hb Hid).
    reflexivity.
Qed.

Lemma upsert_twice_is_once_witness :
  pyget (video_v1 "new") "id" <> PyJ JNull /\
  (upsert KVideo (video_v1 "new") ;;; upsert KVideo (video_v1 "new")) world_with_v1 =
  upsert KVideo (video_v1 "new") world_with_v1.
Proof.
  split; [discriminate|]. apply upsert_twice_is_once. discriminate.
Defined.

(** A playlist item with no [id] key, upserted twice, is stored twice. *)
Definition item_no_id : pydict :=
  [("etag", PyJ (JStr "e")); ("playlistId", PyJ (JStr "PL"));
   ("videoId", PyJ (JStr "v")); ("position", PyJ (JNum 0))].

Lemma upsert_null_id_twice_differs :
  t_playlist_item (w_db ((insert_playlist_item item_no_id ;;;
                          insert_playlist_item item_no_id) empty_world).1) =
    [[SText "e"; SNull; SText "PL"; SText "v"; SInt 0];
     [SText "e"; SNull; SText "PL"; SText "v"; SInt 0]] /\
  t_playlist_item (w_db (insert_playlist_item item_no_id empty_world).1) =
    [[SText "e"; SNull; SText "PL"; SText "v"; SInt 0]].
Proof. split; reflexivity. Qed.

(** Two items of one playlist, the later position stored first. *)
Definition item_at (id : string) (pos : Z) : pydict :=
  [("etag", PyJ (JStr "e")); ("id", PyJ (JStr id)); ("playlistId", PyJ (JStr "PL"));
   ("videoId", PyJ (JStr "v")); ("position", PyJ (JNum pos))].

Lemma get_playlist_items_scan_order :
  ((insert_playlist_item (item_at "i1" 1) ;;;
    insert_playlist_item (item_at "i0" 0) ;;;
    get_playlist_items "PL") empty_world).2 =
  inr [row_to_dict KPlaylistItem [SText "e"; SText "i1"; SText "PL"; SText "v"; SInt 1];
       row_to_dict KPlaylistItem [SText "e"; SText "i0"; SText "PL"; SText "v"; SInt 0]].
Proof. reflexivity. Qed.

(** C4 (as amended): [get_playlist_items] returns, as dicts, exactly the
    stored playlist items whose [playlistId] is the given id, in the
    table's scan (rowid) order; nothing orders them by position. *)
Theorem get_playlist_items_rows pid w :
  exists rows,
    get_playlist_items pid w = (w, inr (map (row_to_dict KPlaylistItem) rows)) /\
    sublist rows (t_playlist_item (w_db w)) /\
    (forall r, r ∈ rows <-> r ∈ t_playlist_item (w_db w) /\ nth 2 r SNull = SText pid).
Proof.
  eexists. split; [reflexivity|]. split; [apply sublist_filter|].
  intros r. rewrite list_elem_of_filter.
  destruct (sql_eq (nth 2 r SNull) (SText pid)) eqn:E; simpl.
  - apply sql_eq_text_r in E. tauto.
  - split; [tauto|]. intros [_ H]. rewrite H in E. simpl in E.
    rewrite String.eqb_refl in E. discriminate.
Qed.

(* ------------------------------------------------------------------ *)
(** ** Normalization failures in the paginated fetcher *)

Definition raw_playlist (id : string) (snippet : list (string * json)) : json :=
  JObj [("etag", JStr "tag"); ("id", JStr id); ("snippet", JObj snippet);
        ("contentDetails", JObj [("itemCount", JNum 3)])].

(** A first item whose snippet has no [title], then a well-formed one. *)
Definition page_with_untitled_item : json :=
  JObj [("items", JArr
    [raw_playlist "PL1" [("publishedAt", JStr "2024-01-01T00:00:00Z"); ("channelId", JStr "ch");
                         ("description", JStr "")];
     raw_playlist "PL2" [("publishedAt", JStr "2024-01-01T00:00:00Z"); ("channelId", JStr "ch");
                         ("title", JStr "Second"); ("description", JStr "")]])].

(** C5: the [KeyError] of the first item leaves [get_all_playlists]; the
    second, well-formed item of the same page is never stored. *)
Theorem get_all_playlists_malformed_item_aborts_page :
  get_all_playlists (fun _ => inr page_with_untitled_item)
    (fun s => Some (mkDatetime s)) 5 empty_world =
  (mkWorld (mkDb [] [] []) [ReqPlaylists JNull] [], inl (KeyError "title")).
Proof. reflexivity. Qed.

(* ------------------------------------------------------------------ *)
(** ** The ingestion reconciler *)

Section Reconcile.

Variable api_videos : json -> exn + json.
Variable fromisoformat : string -> option datetime.
Variable path_exists : string -> bool.
Variable read_lines : string -> exn + list string.

(** The record a single-item lookup of [v] yields: the first item of a
    non-empty answer, normalized; [None] when the answer is empty, the
    request fails or the item does not normalize. *)
Definition video_lookup (v : string) : option pydict :=
  match exn_bind (api_videos (JStr v)) (fun resp => getitem resp "items") with
  | inr items =>
      if truthy items then
        match exn_bind (index0 items) (normalize_video fromisoformat) with
        | inr d => Some d
        | inl _ => None
        end
      else None
  | inl _ => None
  end.

(** The diagnostics [get_video_data] prints when it returns [None]. *)
Definition skip_diagnostic (v msg : string) : Prop :=
  msg = "Video with ID " +:+ v +:+ " not found on YouTube" \/
  exists e, msg = "Error fetching video data for ID " +:+ v +:+ ": " +:+ exn_str e.

Definition cached (v : string) (d : db) : bool :=
  match select_video v d with Some _ => true | None => false end.

(** Storing a normalized record, as [insert_video] does when it binds. *)
Definition store_video (d : db) (vd : pydict) : db :=
  match bind_row KVideo vd with inr r => upsert_table KVideo r d | inl _ => d end.



Lemma bind_inr {A B} (m : M A) (f : A -> M B) w w1 a :
  m w = (w1, inr a) -> bind m f w = f a w1.
Proof. intros H. unfold bind. by rewrite H. Qed.


Lemma get_video_data_spec v w :
  exists out,
    get_video_data api_videos fromisoformat v w =
      (mkWorld (w_db w) (w_log w ++ [ReqVideos (JStr v)]) (w_out w ++ out),
       inr (video_lookup v)) /\
    (video_lookup v = None -> exists msg, out = [msg] /\ skip_diagnostic v msg) /\
    (is_Some (video_lookup v) -> out = []).
Proof.
  unfold get_video_data, video_lookup, try_except, bind, send, lift, ret, print.
  simpl. destruct (api_videos (JStr v)) as [e|resp]; simpl.
  { eexists. split; [reflexivity|]. split; [|intros []; discriminate].
    intros _. eexists. split; [reflexivity|]. right. eauto. }
  destruct (getitem resp "items") as [e|items]; simpl.
  { eexists. split; [reflexivity|]. split; [|intros []; discriminate].
    intros _. eexists. split; [reflexivity|]. right. eauto. }
  destruct (truthy items).
  - destruct (index0 items) as [e|it]; simpl.
    { eexists. split; [reflexivity|]. split; [|intros []; discriminate].
      intros _. eexists. split; [reflexivity|]. right. eauto. }
    destruct (normalize_video fromisoformat it) as [e|d]; simpl.
    + eexists. split; [reflexivity|]. split; [|intros []; discriminate].
      intros _. eexists. split; [reflexivity|]. right. eauto.
    + exists []. rewrite app_nil_r. split; [reflexivity|]. split; [discriminate|auto].
  - eexists. split; [reflexivity|]. split; [|intros []; discriminate].
    intros _. eexists. split; [reflexivity|]. left. reflexivity.
Qed.

Lemma select_video_upsert v r d :
  select_video v (upsert_table KVideo r d) =
  if sql_eq (row_id r) (SText v) then Some (row_to_dict KVideo r) else select_video v d.
Proof.
  unfold select_video, upsert_table. simpl.
  rewrite filter_key_insert_or_replace. by destruct (sql_eq (row_id r) (SText v)).
Qed.

Lemma bind_row_text_id d r v :
  bind_row KVideo d = inr r -> pyget d "id" = PyJ (JStr v) -> row_id r = SText v.
Proof.
  intros Hb Hid. destruct (bind_row_id _ _ _ Hb) as (x & Hx & ->).
  rewrite Hid in Hx. simpl in Hx. inversion Hx. reflexivity.
Qed.


Lemma cached_upsert_other v v' r d :
  row_id r = SText v -> v <> v' -> cached v' (upsert_table KVideo r d) = cached v' d.
Proof.
  intros H Hne. unfold cached. rewrite select_video_upsert, H. simpl.
  destruct (String.eqb v v') eqn:E; [apply String.eqb_eq in E; congruence|reflexivity].
Qed.


Lemma filter_ext_in {A} (P Q : A -> Prop) `{!forall x, Decision (P x)}
    `{!forall x, Decision (Q x)} (l : list A) :
  (forall x, x ∈ l -> P x <-> Q x) -> filter P l = filter Q l.
Proof.
  induction l as [|x l IH]; intros Hin; [reflexivity|].
  rewrite !filter_cons.
  assert (HPQ : P x <-> Q x) by (apply Hin; left).
  rewrite IH by (intros y Hy; apply Hin; right; exact Hy).
  destruct (decide (P x)), (decide (Q x)); tauto.
Qed.

Lemma omap_cons {A B} (f : A -> option B) x (l : list A) :
  omap f (x :: l) = match f x with Some y => y :: omap f l | None => omap f l end.
Proof. reflexivity. Qed.

Lemma process_ids_cons v vs w :
  process_ids api_videos fromisoformat (v :: vs) w =
  match select_video v (w_db w) with
  | Some _ => bind (process_ids api_videos fromisoformat vs) (fun o => ret ([] ++ o)) w
  | None =>
      match get_video_data api_videos fromisoformat v
              (mkWorld (w_db w) (w_log w) (w_out w ++ ["Fetching new video data for ID: " +:+ v]))
      with
      | (w2, inl e) => (w2, inl e)
      | (w2, inr None) => bind (process_ids api_videos fromisoformat vs) (fun o => ret ([] ++ o)) w2
      | (w2, inr (Some d)) =>
          match insert_video d w2 with
          | (w3, inl e) => (w3, inl e)
          | (w3, inr _) => bind (process_ids api_videos fromisoformat vs) (fun o => ret ([d] ++ o)) w3
          end
      end
  end.
Proof.
  cbn [process_ids]. unfold bind at 1. unfold get_video, read_db.
  destruct (select_video v (w_db w)); [reflexivity|].
  unfold bind at 1. unfold bind at 1. unfold print at 1.
  unfold bind at 1.
  destruct (get_video_data api_videos fromisoformat v _) as [w2 [e|[d|]]]; [reflexivity| |reflexivity].
  unfold bind at 1. unfold ret at 1.
  destruct (insert_video d w2) as [w3 [e|[]]]; reflexivity.
Qed.

(** The ids of [ids] that the store [d] does not hold. *)
Definition absent_ids (ids : list string) (d : db) : list string :=
  filter (fun v => cached v d = false) ids.

(** One run of the reconciler over a duplicate-free list of ids. *)
Lemma process_ids_run ids w :
  NoDup ids ->
  (forall v d, video_lookup v = Some d ->
     pyget d "id" = PyJ (JStr v) /\ exists r, bind_row KVideo d = inr r) ->
  exists w',
    process_ids api_videos fromisoformat ids w =
      (w', inr (omap video_lookup (absent_ids ids (w_db w)))) /\
    w_log w' = w_log w ++ map (fun v => ReqVideos (JStr v)) (absent_ids ids (w_db w)) /\
    w_db w' = foldl store_video (w_db w) (omap video_lookup (absent_ids ids (w_db w))) /\
    (exists out, w_out w' = w_out w ++ out) /\
    (forall v, v ∈ absent_ids ids (w_db w) -> video_lookup v = None ->
       exists msg, msg ∈ w_out w' /\ skip_diagnostic v msg).
Proof using api_videos fromisoformat.
  clear path_exists read_lines.
  revert w. induction ids as [|v vs IH]; intros w Hnd Hcons.
  { exists w. unfold absent_ids. simpl. rewrite !app_nil_r.
    split; [reflexivity|]. split; [reflexivity|]. split; [reflexivity|].
    split; [exists []; by rewrite app_nil_r|]. intros v Hv. inversion Hv. }
  apply NoDup_cons in Hnd as [Hv Hnd].
  rewrite process_ids_cons. unfold absent_ids in *. rewrite filter_cons.
  destruct (select_video v (w_db w)) as [row|] eqn:Es.
  - (* already stored: skipped, no request *)
    assert (Ec : cached v (w_db w) = true) by (unfold cached; by rewrite Es).
    rewrite decide_False by (rewrite Ec; discriminate).
    destruct (IH w Hnd Hcons) as (w' & Hrun & Hlog & Hdb & Hout & Hdiag).
    exists w'. rewrite (bind_inr _ _ w w' _ Hrun). auto.
  - assert (Ec : cached v (w_db w) = false) by (unfold cached; by rewrite Es).
    rewrite decide_True by exact Ec.
    set (msg0 := "Fetching new video data for ID: " +:+ v).
    set (w1 := mkWorld (w_db w) (w_log w) (w_out w ++ [msg0])).
    destruct (get_video_data_spec v w1) as (out1 & Hgd & Hnone & Hsome).
    rewrite Hgd. simpl.
    set (w2 := mkWorld (w_db w) (w_log w ++ [ReqVideos (JStr v)])
                       ((w_out w ++ [msg0]) ++ out1)).
    destruct (video_lookup v) as [d|] eqn:Ev.
    + (* the lookup yields a record: stored and returned *)
      destruct (Hcons v d Ev) as (Hid & r & Hb).
      pose proof (bind_row_text_id d r v Hb Hid) as Hrid.
      unfold insert_video. rewrite (upsert_ok KVideo d r w2 Hb).
      set (w3 := mkWorld (upsert_table KVideo r (w_db w2)) (w_log w2) (w_out w2)).
      assert (Habs : filter (fun v' => cached v' (w_db w3) = false) vs =
                     filter (fun v' => cached v' (w_db w) = false) vs).
      { apply filter_ext_in. intros v' Hv'. unfold w3, w2. cbn [w_db].
        rewrite (cached_upsert_other v v' r (w_db w) Hrid); [tauto|].
        intros ->. contradiction. }
      destruct (IH w3 Hnd Hcons) as (w' & Hrun & Hlog & Hdb & Hout & Hdiag).
      rewrite Habs in Hrun, Hlog, Hdb, Hdiag.
      exists w'. rewrite (bind_inr _ _ w3 w' _ Hrun).
      split; [reflexivity|]. split; [|split; [|split]].
      * rewrite Hlog. simpl. by rewrite <- app_assoc.
      * rewrite Hdb. cbn [foldl]. replace (store_video (w_db w) d) with (upsert_table KVideo r (w_db w)) by (unfold store_video; by rewrite Hb). reflexivity.
      * destruct Hout as (o & Ho). rewrite Ho. simpl.
        eexists. by rewrite <- !app_assoc.
      * intros v0 Hv0 Hl. apply elem_of_cons in Hv0 as [->|Hv0]; [congruence|].
        exact (Hdiag v0 Hv0 Hl).
    + (* the lookup yields nothing: skipped after a diagnostic *)
      destruct (IH w2 Hnd Hcons) as (w' & Hrun & Hlog & Hdb & Hout & Hdiag).
      simpl in Hrun, Hlog, Hdb, Hdiag.
      exists w'. rewrite (bind_inr _ _ w2 w' _ Hrun).
      destruct Hout as (o & Ho). simpl in Ho.
      split; [reflexivity|]. split; [|split; [|split]].
      * rewrite Hlog. by rewrite <- app_assoc.
      * exact Hdb.
      * rewrite Ho. eexists. by rewrite <- !app_assoc.
      * intros v0 Hv0 Hl. apply elem_of_cons in Hv0 as [->|Hv0]; [|exact (Hdiag v0 Hv0 Hl)].
        destruct (Hnone eq_refl) as (msg & -> & Hm).
        exists msg. split; [|exact Hm]. rewrite Ho.
        apply elem_of_app. left. apply elem_of_app. right. by left.
Qed.

(** C6: in whatever order the extracted ids are iterated, the reconciler
    sends exactly one single-item lookup for each id the store does not
    hold and none for the others, returns exactly the records those
    lookups yield, stores them, and skips each id whose lookup yields no
    record after printing a diagnostic naming it, without raising; this
    for a remote whose lookup of [v] yields a record with id [v] and
    bindable fields. *)
Theorem process_ids_reconciles ids w :
  NoDup ids ->
  (forall v d, video_lookup v = Some d ->
     pyget d "id" = PyJ (JStr v) /\ exists r, bind_row KVideo d = inr r) ->
  exists w',
    process_ids api_videos fromisoformat ids w =
      (w', inr (omap video_lookup (absent_ids ids (w_db w)))) /\
    w_log w' = w_log w ++ map (fun v => ReqVideos (JStr v)) (absent_ids ids (w_db w)) /\
    w_db w' = foldl store_video (w_db w) (omap video_lookup (absent_ids ids (w_db w))) /\
    (exists out, w_out w' = w_out w ++ out) /\
    (forall v, v ∈ absent_ids ids (w_db w) -> video_lookup v = None ->
       exists msg, msg ∈ w_out w' /\ skip_diagnostic v msg).
Proof. exact (process_ids_run ids w). Qed.











Section IdsMatch.

(** The remote answers a lookup of [v], when it yields a record, with a
    record of id [v]. *)
Hypothesis Hid : forall v d, video_lookup v = Some d -> pyget d "id" = PyJ (JStr v).





End IdsMatch.

Section Consistent.

(** The remote answers a lookup of [v] with a record of id [v] whose
    fields bind to SQL values. *)
Hypothesis Hcons : forall v d, video_lookup v = Some d ->
  pyget d "id" = PyJ (JStr v) /\ exists r, bind_row KVideo d = inr r.



End Consistent.

End Reconcile.

(** A remote that knows the single video [A]. *)
Definition demo_video (v : string) : json :=
  JObj [("etag", JStr "e"); ("id", JStr v);
        ("snippet", JObj [("title", JStr "t"); ("description", JStr "");
                          ("publishedAt", JStr "2024-01-01T00:00:00Z");
                          ("channelId", JStr "c"); ("channelTitle", JStr "ct")])].

Definition demo_api_videos (j : json) : exn + json :=
  match j with
  | JStr v => if String.eqb v "A" then inr (JObj [("items", JArr [demo_video v])])
              else inr (JObj [("items", JArr [])])
  | _ => inr (JObj [("items", JArr [])])
  end.

(** [datetime.fromisoformat] on the well-formed texts the demo remote
    sends, with the [isoformat(" ")] rendering: the [T] between the date
    and the time becomes a space. *)
Fixpoint iso_space (s : string) : string :=
  match s with
  | EmptyString => EmptyString
  | String c s' => String (if Ascii.eqb c "T"%char then " "%char else c) (iso_space s')
  end.

Definition demo_fromisoformat (s : string) : option datetime := Some (mkDatetime (iso_space s)).


Lemma demo_consistent v d :
  video_lookup demo_api_videos demo_fromisoformat v = Some d ->
  pyget d "id" = PyJ (JStr v) /\ exists r, bind_row KVideo d = inr r.
Proof.
  intros H. unfold video_lookup, demo_api_videos in H.
  destruct (String.eqb_spec v "A") as [->|Hne].
  - vm_compute in H. inversion H; subst. split; [reflexivity|]. eexists. reflexivity.
  - vm_compute in H. discriminate.
Qed.

Lemma process_ids_reconciles_witness :
  NoDup ["A"; "B"] /\
  exists w',
    process_ids demo_api_videos demo_fromisoformat ["A"; "B"] empty_world =
      (w', inr (omap (video_lookup demo_api_videos demo_fromisoformat)
                     (absent_ids ["A"; "B"] (w_db empty_world)))).
Proof.
  assert (Hnd : NoDup ["A"; "B"]) by (apply (bool_decide_unpack _); vm_compute; exact I).
  split; [exact Hnd|].
  destruct (process_ids_reconciles demo_api_videos demo_fromisoformat ["A"; "B"]
              empty_world Hnd demo_consistent) as (w' & Hrun & _).
  exists w'. exact Hrun.
Defined.



(** A remote whose record of every video has an [int] title beyond 64
    bits, and one that answers every lookup with the record of [B]. *)
Definition remote_big_title (j : json) : exn + json :=
  match j with
  | JStr v =>
      inr (JObj [("items", JArr
        [JObj [("etag", JStr "e"); ("id", JStr v);
               ("snippet", JObj [("title", JNum (2 ^ 63)%Z); ("description", JStr "");
                                 ("publishedAt", JStr "2024-01-01T00:00:00Z");
                                 ("channelId", JStr "c"); ("channelTitle", JStr "ct")])]])])
  | _ => inr (JObj [("items", JArr [])])
  end.

Definition remote_other_id (j : json) : exn + json :=
  inr (JObj [("items", JArr [demo_video "B"])]).

Definition video_B_old : pydict :=
  [("etag", PyJ (JStr "old")); ("id", PyJ (JStr "B")); ("title", PyJ (JStr "old title"))].

Definition world_with_B : world := (insert_video video_B_old empty_world).1.

(** Without the conditions on the remote: a record that does not bind
    makes [insert_video] raise out of [process_file] (the id [B] of the
    same batch is never processed); and a record of another id than the
    one looked up is stored and returned under its own id, here [B], which
    the store already held: its row is replaced. *)
Lemma process_ids_bad_record_diverges :
  (exists w',
     process_ids remote_big_title demo_fromisoformat ["A"; "B"] empty_world =
       (w', inl (OverflowError "Python int too large to convert to SQLite INTEGER")) /\
     w_log w' = [ReqVideos (JStr "A")]) /\
  (cached "B" (w_db world_with_B) = true /\
   exists w' d,
     process_ids remote_other_id demo_fromisoformat ["A"] world_with_B = (w', inr [d]) /\
     pyget d "id" = PyJ (JStr "B") /\
     select_video "B" (w_db w') <> select_video "B" (w_db world_with_B)).
Proof.
  split.
  - eexists. split; [vm_compute; reflexivity|reflexivity].
  - split; [vm_compute; reflexivity|].
    eexists _, _. split; [vm_compute; reflexivity|]. split; [reflexivity|].
    vm_compute. discriminate.
Qed.



(* ------------------------------------------------------------------ *)
(** ** The paginated fetcher over a chained listing *)

(** The answer to a list request: its [items], and a [nextPageToken] when
    another page follows. *)
Definition page_response (items : list json) (next : option json) : json :=
  JObj (("items", JArr items) ::
        match next with Some t => [("nextPageToken", t)] | None => [] end).

(** A remote serving the listing [pages]: each page is the pair of the
    token it is requested with and its items; the answer for the token of
    a page carries the token of the next page, the last one carries none. *)
Fixpoint serves (api : json -> exn + json) (pages : list (json * list json)) : Prop :=
  match pages with
  | [] => True
  | (t, its) :: rest =>
      api t = inr (page_response its (option_map fst (head rest))) /\ serves api rest
  end.

Definition upsert_rows (k : kind) (d : db) (rows : list row) : db :=
  foldl (fun d r => upsert_table k r d) d rows.

Lemma mapM_exn_app {A B} (f : A -> exn + B) l1 l2 ys :
  mapM_exn f (l1 ++ l2) = inr ys ->
  exists ys1 ys2, ys = ys1 ++ ys2 /\ mapM_exn f l1 = inr ys1 /\ mapM_exn f l2 = inr ys2.
Proof.
  rewrite !mapM_exn_Forall2. intros H.
  apply Forall2_app_inv_l in H as (ys1 & ys2 & H1 & H2 & ->).
  exists ys1, ys2. rewrite !mapM_exn_Forall2. auto.
Qed.

Lemma get_table_upsert_rows k d rows :
  get_table k (upsert_rows k d rows) =
  foldl (fun t r => insert_or_replace r t) (get_table k d) rows.
Proof.
  revert d. induction rows as [|r rows IH]; intros d; [reflexivity|].
  simpl. rewrite IH. unfold upsert_table. by rewrite get_set_table.
Qed.

Lemma get_table_upsert_rows_other k k' d rows :
  k' <> k -> get_table k' (upsert_rows k d rows) = get_table k' d.
Proof.
  intros Hne. revert d. induction rows as [|r rows IH]; intros d; [reflexivity|].
  simpl. rewrite IH. unfold upsert_table. by rewrite get_set_table_other.
Qed.

Lemma filter_key_foldl rows t key :
  filter (fun r => sql_eq (row_id r) key) (foldl (fun t r => insert_or_replace r t) t rows) =
  match last (filter (fun r => sql_eq (row_id r) key) rows) with
  | Some r => [r]
  | None => filter (fun r => sql_eq (row_id r) key) t
  end.
Proof.
  revert t. induction rows as [|r rows IH]; intros t; [reflexivity|].
  simpl. rewrite IH, filter_key_insert_or_replace, filter_cons.
  destruct (sql_eq (row_id r) key) eqn:E.
  - rewrite decide_True by exact I. rewrite last_cons.
    by destruct (last (filter (fun r => sql_eq (row_id r) key) rows)).
  - rewrite decide_False by (intros Hc; exact Hc).
    reflexivity.
Qed.

Lemma getitem_page its next : getitem (page_response its next) "items" = inr (JArr its).
Proof. by destruct next. Qed.

Lemma next_page its next :
  getmethod (page_response its next) "nextPageToken" =
  inr (match next with Some t => t | None => JNull end).
Proof. by destruct next. Qed.

Lemma concat_map_singleton {A B} (f : A -> B) (l : list A) :
  concat (map (fun x => [f x]) l) = map f l.
Proof. induction l as [|x l IH]; [reflexivity|]. simpl. by rewrite IH. Qed.

(** The loop of [paginate] over a served listing, for an item handler
    that succeeds on every item of the listing with a fixed effect. *)
Section Paginate.

Context {A : Type}.
Variable req : json -> request.
Variable api : json -> exn + json.
Variable handle : json -> M (list A).
Variable item_ok : json -> Prop.
Variable effect : json -> db -> db.
Variable requests : json -> list request.
Variable out : json -> list A.
Hypothesis Hhandle : forall it w, item_ok it ->
  handle it w = (mkWorld (effect it (w_db w)) (w_log w ++ requests it) (w_out w), inr (out it)).

Lemma for_each_run items w :
  Forall item_ok items ->
  for_each handle items w =
    (mkWorld (foldl (fun d it => effect it d) (w_db w) items)
             (w_log w ++ concat (map requests items)) (w_out w),
     inr (concat (map out items))).
Proof.
  revert w. induction items as [|it items IH]; intros w Hok.
  - destruct w. simpl. by rewrite app_nil_r.
  - apply Forall_cons in Hok as [Hit Hok]. cbn [for_each].
    rewrite (bind_inr _ _ w _ _ (Hhandle it w Hit)).
    rewrite (bind_inr _ _ _ _ _ (IH _ Hok)). unfold ret. cbn.
    by rewrite app_assoc.
Qed.

Lemma paginate_run rest t its fuel w :
  serves api ((t, its) :: rest) ->
  Forall (fun p => truthy p.1 = true) rest ->
  length rest < fuel ->
  Forall item_ok (concat (map snd ((t, its) :: rest))) ->
  paginate (fun tok => send (req tok) ;;; lift (api tok)) handle fuel t w =
  (mkWorld (foldl (fun d it => effect it d) (w_db w) (concat (map snd ((t, its) :: rest))))
           (w_log w ++ concat (map (fun p => req p.1 :: concat (map requests p.2))
                                   ((t, its) :: rest)))
           (w_out w),
   inr (concat (map out (concat (map snd ((t, its) :: rest)))))).
Proof.
  revert t its fuel w.
  induction rest as [|[t' its'] rest IH]; intros t its fuel w Hs Ht Hf Hok;
    (destruct fuel as [|fuel]; [simpl in Hf; lia|]);
    destruct Hs as [Ha Hs]; cbn [concat map snd fst] in Hok |- *;
    apply Forall_app in Hok as [Hok1 Hok2];
    cbn [paginate]; unfold bind at 1; unfold bind at 1; unfold send at 1;
    unfold lift at 1; rewrite Ha;
    unfold bind at 1; unfold lift at 1; rewrite getitem_page;
    unfold bind at 1; unfold lift at 1; cbn [py_iter];
    unfold bind at 1; rewrite (for_each_run its _ Hok1);
    unfold bind at 1; unfold lift at 1; rewrite next_page; cbn [head option_map fst].
  - cbn [truthy]. unfold ret. cbn [w_db w_log w_out]. rewrite !app_nil_r.
    by rewrite <- app_assoc.
  - apply Forall_cons in Ht as [Ht' Ht]. cbn [fst] in Ht'. rewrite Ht'.
    unfold bind at 1.
    rewrite (IH t' its' fuel _ Hs Ht) by (simpl in Hf; lia || exact Hok2).
    unfold ret. cbn [w_db w_log w_out concat map fst snd].
    rewrite !foldl_app, !map_app, !concat_app, <- !app_assoc. reflexivity.
Qed.

End Paginate.

Section Listing.

Variable api_playlists : json -> exn + json.
Variable api_playlist_items : string -> json -> exn + json.
Variable api_videos : json -> exn + json.
Variable fromisoformat : string -> option datetime.

(** What [handle_playlist] does with an item that normalizes and binds. *)
Definition playlist_effect (it : json) (d : db) : db :=
  match exn_bind (normalize_playlist fromisoformat it) (bind_row KPlaylist) with
  | inr r => upsert_table KPlaylist r d
  | inl _ => d
  end.

Definition playlist_out (it : json) : list pydict :=
  match normalize_playlist fromisoformat it with inr d => [d] | inl _ => [] end.

Definition playlist_ok (it : json) : Prop :=
  exists d r, normalize_playlist fromisoformat it = inr d /\ bind_row KPlaylist d = inr r.

Lemma handle_playlist_ok it w :
  playlist_ok it ->
  handle_playlist fromisoformat it w =
    (mkWorld (playlist_effect it (w_db w)) (w_log w ++ []) (w_out w), inr (playlist_out it)).
Proof.
  intros (d & r & Ed & Eb). rewrite app_nil_r.
  unfold handle_playlist, insert_playlist, upsert, bind, lift, update_db, ret,
    playlist_effect, playlist_out.
  rewrite Ed. cbn [exn_bind]. by rewrite Eb.
Qed.

Lemma playlists_normalized items recs rows :
  mapM_exn (normalize_playlist fromisoformat) items = inr recs ->
  mapM_exn (bind_row KPlaylist) recs = inr rows ->
  Forall playlist_ok items /\ concat (map playlist_out items) = recs /\
  forall d, foldl (fun d it => playlist_effect it d) d items = upsert_rows KPlaylist d rows.
Proof.
  revert recs rows. induction items as [|it items IH]; intros recs rows Hn Hb.
  - inversion Hn; subst. inversion Hb; subst. auto.
  - cbn [mapM_exn] in Hn. unfold exn_bind in Hn.
    destruct (normalize_playlist fromisoformat it) as [e|d] eqn:Ed; [discriminate|].
    destruct (mapM_exn (normalize_playlist fromisoformat) items) as [e|recs'] eqn:Er;
      [discriminate|].
    inversion Hn; subst recs. cbn [mapM_exn] in Hb. unfold exn_bind in Hb.
    destruct (bind_row KPlaylist d) as [e|r] eqn:Eb; [discriminate|].
    destruct (mapM_exn (bind_row KPlaylist) recs') as [e|rows'] eqn:Ebs; [discriminate|].
    inversion Hb; subst rows.
    destruct (IH recs' rows' eq_refl Ebs) as (Hok & Hout & Hdb).
    split; [constructor; [exists d, r; auto|exact Hok]|]. split.
    + cbn [map concat]. unfold playlist_out at 1. by rewrite Ed, Hout.
    + intros d0. cbn [foldl]. rewrite Hdb. unfold playlist_effect at 1.
      rewrite Ed. cbn [exn_bind]. by rewrite Eb.
Qed.

Lemma pages_requests_nil (req : json -> request) (pages : list (json * list json)) :
  concat (map (fun p => req p.1 :: concat (map (fun _ : json => @nil request) p.2)) pages) =
  map (fun p => req p.1) pages.
Proof.
  induction pages as [|[t its] pages IH]; [reflexivity|]. cbn [map concat fst snd].
  rewrite IH. assert (H0 : concat (map (fun _ : json => @nil request) its) = []).
  { induction its as [|x its IHits]; [reflexivity|]. exact IHits. }
  by rewrite H0.
Qed.

(** [get_all_playlists] over a served listing whose items all normalize
    and bind. *)
Lemma get_all_playlists_run its0 rest fuel w recs rows :
  serves api_playlists ((JNull, its0) :: rest) ->
  Forall (fun p => truthy p.1 = true) rest ->
  length rest < fuel ->
  mapM_exn (normalize_playlist fromisoformat) (concat (map snd ((JNull, its0) :: rest))) = inr recs ->
  mapM_exn (bind_row KPlaylist) recs = inr rows ->
  get_all_playlists api_playlists fromisoformat fuel w =
    (mkWorld (upsert_rows KPlaylist (w_db w) rows)
             (w_log w ++ map (fun p => ReqPlaylists p.1) ((JNull, its0) :: rest)) (w_out w),
     inr recs).
Proof.
  intros Hs Ht Hf Hn Hb.
  destruct (playlists_normalized _ recs rows Hn Hb) as (Hok & Hout & Hdb).
  unfold get_all_playlists.
  rewrite (paginate_run ReqPlaylists api_playlists (handle_playlist fromisoformat)
             playlist_ok playlist_effect (fun _ => []) playlist_out handle_playlist_ok
             rest JNull its0 fuel w Hs Ht Hf Hok).
  by rewrite Hout, Hdb, pages_requests_nil.
Qed.

(** The video record of a playlist item: the single-item lookup of its
    [videoId]. *)
Definition item_video_id (it : json) : json :=
  match get2 it "contentDetails" "videoId" with inr v => v | inl _ => JNull end.

Definition item_video (it : json) : option pydict :=
  match item_video_id it with
  | JStr v => video_lookup api_videos fromisoformat v
  | _ => None
  end.

(** The lookup of [v] answers with an [items] list, and when that list is
    non-empty its first element normalizes and binds. *)
Definition video_answer_ok (v : string) : Prop :=
  exists resp vitems,
    api_videos (JStr v) = inr resp /\ getitem resp "items" = inr vitems /\
    (truthy vitems = true ->
     exists vi vd r, index0 vitems = inr vi /\ normalize_video fromisoformat vi = inr vd /\
                     bind_row KVideo vd = inr r).

(** What [handle_playlist_item] does with an item that normalizes and
    binds, and whose video lookup answers. *)
Definition item_effect (playlist_id : string) (it : json) (d : db) : db :=
  let d1 := match exn_bind (normalize_playlist_item playlist_id it) (bind_row KPlaylistItem) with
            | inr r => upsert_table KPlaylistItem r d
            | inl _ => d
            end in
  match item_video it with Some vd => store_video d1 vd | None => d1 end.

Definition item_out (it : json) : list pydict :=
  match item_video it with Some vd => [vd] | None => [] end.

Definition item_ok (playlist_id : string) (it : json) : Prop :=
  (exists d r, normalize_playlist_item playlist_id it = inr d /\ bind_row KPlaylistItem d = inr r) /\
  exists v, get2 it "contentDetails" "videoId" = inr (JStr v) /\ video_answer_ok v.

Lemma handle_playlist_item_ok playlist_id it w :
  item_ok playlist_id it ->
  handle_playlist_item api_videos fromisoformat playlist_id it w =
    (mkWorld (item_effect playlist_id it (w_db w)) (w_log w ++ [ReqVideos (item_video_id it)])
             (w_out w),
     inr (item_out it)).
Proof.
  intros ((d & r & Ed & Eb) & v & Ev & resp & vitems & Ea & Ei & Hv).
  unfold handle_playlist_item, item_effect, item_out, item_video, item_video_id.
  rewrite Ed. cbn [exn_bind]. rewrite Eb, Ev.
  unfold video_lookup. rewrite Ea. cbn [exn_bind]. rewrite Ei.
  unfold insert_playlist_item, upsert, bind, lift, update_db, ret, send.
  rewrite ?Ed, ?Eb, ?Ev, ?Ea, ?Ei. cbn [w_db w_log w_out exn_bind].
  rewrite ?Eb. cbn [w_db w_log w_out].
  destruct (truthy vitems) eqn:Et.
  - destruct (Hv eq_refl) as (vi & vd & rv & Ex & En & Ebv).
    rewrite Ex. cbn [exn_bind]. rewrite En.
    unfold insert_video, upsert, bind, lift, update_db, store_video.
    rewrite Ebv. reflexivity.
  - reflexivity.
Qed.

Lemma store_video_other_table k d vd :
  k <> KVideo -> get_table k (store_video d vd) = get_table k d.
Proof.
  intros Hk. unfold store_video. destruct (bind_row KVideo vd); [reflexivity|].
  unfold upsert_table. by rewrite get_set_table_other.
Qed.

Lemma items_normalized playlist_id items irecs irows :
  mapM_exn (normalize_playlist_item playlist_id) items = inr irecs ->
  mapM_exn (bind_row KPlaylistItem) irecs = inr irows ->
  forall d, get_table KPlaylistItem (foldl (fun d it => item_effect playlist_id it d) d items) =
            foldl (fun t r => insert_or_replace r t) (get_table KPlaylistItem d) irows.
Proof.
  revert irecs irows. induction items as [|it items IH]; intros irecs irows Hn Hb d.
  - inversion Hn; subst. inversion Hb; subst. reflexivity.
  - cbn [mapM_exn] in Hn. unfold exn_bind in Hn.
    destruct (normalize_playlist_item playlist_id it) as [e|x] eqn:Ed; [discriminate|].
    destruct (mapM_exn (normalize_playlist_item playlist_id) items) as [e|irecs'] eqn:Er;
      [discriminate|].
    inversion Hn; subst irecs. cbn [mapM_exn] in Hb. unfold exn_bind in Hb.
    destruct (bind_row KPlaylistItem x) as [e|r] eqn:Eb; [discriminate|].
    destruct (mapM_exn (bind_row KPlaylistItem) irecs') as [e|irows'] eqn:Ebs; [discriminate|].
    inversion Hb; subst irows.
    cbn [foldl]. rewrite (IH irecs' irows' eq_refl Ebs).
    f_equal. unfold item_effect. rewrite Ed. cbn [exn_bind]. rewrite Eb.
    destruct (item_video it).
    + rewrite store_video_other_table by discriminate.
      unfold upsert_table. by rewrite get_set_table.
    + unfold upsert_table. by rewrite get_set_table.
Qed.

Lemma items_out items :
  concat (map item_out items) = omap item_video items.
Proof.
  induction items as [|it items IH]; [reflexivity|].
  cbn [map concat]. rewrite omap_cons, <- IH. unfold item_out.
  by destruct (item_video it).
Qed.

(** [get_playlist_videos] over a served listing whose items all normalize
    and bind and whose video lookups answer. *)
Lemma get_playlist_videos_run playlist_id its0 rest fuel w irecs irows :
  serves (api_playlist_items playlist_id) ((JNull, its0) :: rest) ->
  Forall (fun p => truthy p.1 = true) rest ->
  length rest < fuel ->
  Forall (item_ok playlist_id) (concat (map snd ((JNull, its0) :: rest))) ->
  mapM_exn (normalize_playlist_item playlist_id) (concat (map snd ((JNull, its0) :: rest))) = inr irecs ->
  mapM_exn (bind_row KPlaylistItem) irecs = inr irows ->
  exists w',
    get_playlist_videos api_playlist_items api_videos fromisoformat fuel playlist_id w =
      (w', inr (omap item_video (concat (map snd ((JNull, its0) :: rest))))) /\
    w_log w' = w_log w ++ concat (map (fun p => ReqPlaylistItems playlist_id p.1 ::
                                                 map (fun it => ReqVideos (item_video_id it)) p.2)
                                      ((JNull, its0) :: rest)) /\
    w_out w' = w_out w /\
    get_table KPlaylistItem (w_db w') =
      foldl (fun t r => insert_or_replace r t) (get_table KPlaylistItem (w_db w)) irows.
Proof.
  intros Hs Ht Hf Hok Hn Hb. unfold get_playlist_videos.
  rewrite (paginate_run (ReqPlaylistItems playlist_id) (api_playlist_items playlist_id)
             (handle_playlist_item api_videos fromisoformat playlist_id)
             (item_ok playlist_id) (item_effect playlist_id)
             (fun it => [ReqVideos (item_video_id it)]) item_out
             (handle_playlist_item_ok playlist_id) rest JNull its0 fuel w Hs Ht Hf Hok).
  eexists. split; [by rewrite items_out|]. cbn [w_log w_out w_db].
  split; [|split; [reflexivity|exact (items_normalized _ _ _ _ Hn Hb _)]].
  f_equal. f_equal. apply map_ext. intros p. f_equal.
  apply concat_map_singleton.
Qed.

(** C1: the paginated fetcher, in both of its uses.  Against a remote
    serving a listing of [N] pages chained by their tokens (the first
    page requested with no token, every later token truthy), it issues
    exactly the [N] list requests of the listing, in order (no token,
    then each page's token as the previous answer gave it), stops after
    the page carrying no token, and upserts every item of every page, so
    that for every id the stored row is the one of its last occurrence
    in the listing.  [get_all_playlists] returns the normalized items of
    every page and touches no other table; [get_playlist_videos] also
    looks up the video of each item, one request after storing that item,
    and returns the videos found.  [fuel] bounds the iterations of
    [while True] and only needs to exceed [N]. *)
Theorem paginated_fetch_listing :
  (forall its0 rest fuel w recs rows,
     serves api_playlists ((JNull, its0) :: rest) ->
     Forall (fun p => truthy p.1 = true) rest ->
     length rest < fuel ->
     mapM_exn (normalize_playlist fromisoformat) (concat (map snd ((JNull, its0) :: rest))) = inr recs ->
     mapM_exn (bind_row KPlaylist) recs = inr rows ->
     exists w',
       get_all_playlists api_playlists fromisoformat fuel w = (w', inr recs) /\
       w_log w' = w_log w ++ ReqPlaylists JNull :: map (fun p => ReqPlaylists p.1) rest /\
       w_out w' = w_out w /\
       (forall key,
          filter (fun r => sql_eq (row_id r) key) (get_table KPlaylist (w_db w')) =
          match last (filter (fun r => sql_eq (row_id r) key) rows) with
          | Some r => [r]
          | None => filter (fun r => sql_eq (row_id r) key) (get_table KPlaylist (w_db w))
          end) /\
       (forall k, k <> KPlaylist -> get_table k (w_db w') = get_table k (w_db w))) /\
  (forall playlist_id its0 rest fuel w irecs irows,
     serves (api_playlist_items playlist_id) ((JNull, its0) :: rest) ->
     Forall (fun p => truthy p.1 = true) rest ->
     length rest < fuel ->
     Forall (item_ok playlist_id) (concat (map snd ((JNull, its0) :: rest))) ->
     mapM_exn (normalize_playlist_item playlist_id) (concat (map snd ((JNull, its0) :: rest))) = inr irecs ->
     mapM_exn (bind_row KPlaylistItem) irecs = inr irows ->
     exists w',
       get_playlist_videos api_playlist_items api_videos fromisoformat fuel playlist_id w =
         (w', inr (omap item_video (concat (map snd ((JNull, its0) :: rest))))) /\
       w_log w' = w_log w ++ concat (map (fun p => ReqPlaylistItems playlist_id p.1 ::
                                                    map (fun it => ReqVideos (item_video_id it)) p.2)
                                         ((JNull, its0) :: rest)) /\
       w_out w' = w_out w /\
       (forall key,
          filter (fun r => sql_eq (row_id r) key) (get_table KPlaylistItem (w_db w')) =
          match last (filter (fun r => sql_eq (row_id r) key) irows) with
          | Some r => [r]
          | None => filter (fun r => sql_eq (row_id r) key) (get_table KPlaylistItem (w_db w))
          end)).
Proof.
  split.
  - intros its0 rest fuel w recs rows Hs Ht Hf Hn Hb.
    eexists. split; [exact (get_all_playlists_run its0 rest fuel w recs rows Hs Ht Hf Hn Hb)|].
    cbn [w_log w_out w_db]. split; [reflexivity|]. split; [reflexivity|]. split.
    + intros key. rewrite get_table_upsert_rows. apply filter_key_foldl.
    + intros k Hk. by apply get_table_upsert_rows_other.
  - intros playlist_id its0 rest fuel w irecs irows Hs Ht Hf Hok Hn Hb.
    destruct (get_playlist_videos_run playlist_id its0 rest fuel w irecs irows Hs Ht Hf Hok Hn Hb)
      as (w' & Hrun & Hlog & Hout & Htab).
    exists w'. split; [exact Hrun|]. split; [exact Hlog|]. split; [exact Hout|].
    intros key. rewrite Htab. apply filter_key_foldl.
Qed.

End Listing.

(** A two-page listing of playlists in which [PL1] occurs on both pages. *)
Definition demo_snippet (title : string) : list (string * json) :=
  [("publishedAt", JStr "2024-01-01T00:00:00Z"); ("channelId", JStr "ch");
   ("title", JStr title); ("description", JStr "")].

Definition demo_first_page : list json := [raw_playlist "PL1" (demo_snippet "old")].

Definition demo_later_pages : list (json * list json) :=
  [(JStr "t2", [raw_playlist "PL1" (demo_snippet "new"); raw_playlist "PL2" (demo_snippet "b")])].

Definition demo_api_playlists (t : json) : exn + json :=
  match t with
  | JNull => inr (page_response demo_first_page (Some (JStr "t2")))
  | JStr "t2" => inr (page_response (snd (hd (JNull, []) demo_later_pages)) None)
  | _ => inl (HttpError "invalid page token")
  end.

(** A two-page listing of playlist items: video [A] is known to the
    remote, video [B] is not. *)
Definition demo_item (id v : string) (pos : Z) : json :=
  JObj [("etag", JStr "e"); ("id", JStr id); ("snippet", JObj [("position", JNum pos)]);
        ("contentDetails", JObj [("videoId", JStr v)])].

Definition demo_first_items : list json := [demo_item "I0" "A" 0].

Definition demo_later_items : list (json * list json) :=
  [(JStr "p2", [demo_item "I1" "B" 1; demo_item "I0" "A" 0])].

Definition demo_api_playlist_items (playlist_id : string) (t : json) : exn + json :=
  match t with
  | JNull => inr (page_response demo_first_items (Some (JStr "p2")))
  | JStr "p2" => inr (page_response (snd (hd (JNull, []) demo_later_items)) None)
  | _ => inl (HttpError "invalid page token")
  end.

Lemma demo_items_ok :
  Forall (item_ok demo_api_videos demo_fromisoformat "PL")
    (concat (map snd ((JNull, demo_first_items) :: demo_later_items))).
Proof.
  apply Forall_forall. intros it Hit.
  assert (Hc : it = demo_item "I0" "A" 0 \/ it = demo_item "I1" "B" 1).
  { cbn [concat map snd demo_first_items demo_later_items app] in Hit.
    rewrite !elem_of_cons, elem_of_nil in Hit. tauto. }
  destruct Hc as [-> | ->]; (split; [do 2 eexists; split; reflexivity|]);
    eexists; (split; [reflexivity|]); do 2 eexists; (split; [reflexivity|]);
    (split; [reflexivity|]); intros Htr;
    first [discriminate Htr | do 3 eexists; split; [reflexivity|split; reflexivity]].
Qed.

Lemma paginated_fetch_listing_witness :
  (exists recs rows,
     serves demo_api_playlists ((JNull, demo_first_page) :: demo_later_pages) /\
     Forall (fun p => truthy p.1 = true) demo_later_pages /\
     length demo_later_pages < 3 /\
     mapM_exn (normalize_playlist demo_fromisoformat)
       (concat (map snd ((JNull, demo_first_page) :: demo_later_pages))) = inr recs /\
     mapM_exn (bind_row KPlaylist) recs = inr rows /\
     exists w',
       get_all_playlists demo_api_playlists demo_fromisoformat 3 empty_world = (w', inr recs) /\
       w_log w' = [ReqPlaylists JNull; ReqPlaylists (JStr "t2")]) /\
  (exists irecs irows,
     serves (demo_api_playlist_items "PL") ((JNull, demo_first_items) :: demo_later_items) /\
     Forall (fun p => truthy p.1 = true) demo_later_items /\
     length demo_later_items < 3 /\
     mapM_exn (normalize_playlist_item "PL")
       (concat (map snd ((JNull, demo_first_items) :: demo_later_items))) = inr irecs /\
     mapM_exn (bind_row KPlaylistItem) irecs = inr irows /\
     exists w',
       get_playlist_videos demo_api_playlist_items demo_api_videos demo_fromisoformat 3 "PL"
         empty_world =
         (w', inr (omap (item_video demo_api_videos demo_fromisoformat)
                        (concat (map snd ((JNull, demo_first_items) :: demo_later_items))))) /\
       w_log w' = [ReqPlaylistItems "PL" JNull; ReqVideos (JStr "A");
                   ReqPlaylistItems "PL" (JStr "p2"); ReqVideos (JStr "B");
                   ReqVideos (JStr "A")]).
Proof.
  destruct (paginated_fetch_listing demo_api_playlists demo_api_playlist_items
              demo_api_videos demo_fromisoformat) as [Ha Hb].
  split.
  - eexists _, _.
    assert (Hs : serves demo_api_playlists ((JNull, demo_first_page) :: demo_later_pages))
      by (split; [reflexivity|split; [reflexivity|exact I]]).
    assert (Ht : Forall (fun p => truthy p.1 = true) demo_later_pages) by (repeat constructor).
    assert (Hf : length demo_later_pages < 3) by (simpl; lia).
    split; [exact Hs|]. split; [exact Ht|]. split; [exact Hf|].
    split; [reflexivity|]. split; [reflexivity|].
    destruct (Ha demo_first_page demo_later_pages 3 empty_world _ _ Hs Ht Hf eq_refl eq_refl)
      as (w' & Hrun & Hlog & _).
    exists w'. split; [exact Hrun|]. rewrite Hlog. reflexivity.
  - eexists _, _.
    assert (Hs : serves (demo_api_playlist_items "PL") ((JNull, demo_first_items) :: demo_later_items))
      by (split; [reflexivity|split; [reflexivity|exact I]]).
    assert (Ht : Forall (fun p => truthy p.1 = true) demo_later_items) by (repeat constructor).
    assert (Hf : length demo_later_items < 3) by (simpl; lia).
    split; [exact Hs|]. split; [exact Ht|]. split; [exact Hf|].
    split; [reflexivity|]. split; [reflexivity|].
    destruct (Hb "PL" demo_first_items demo_later_items 3 empty_world _ _ Hs Ht Hf demo_items_ok
                eq_refl eq_refl) as (w' & Hrun & Hlog & _).
    exists w'. split; [exact Hrun|]. rewrite Hlog. reflexivity.
Defined.

(* ------------------------------------------------------------------ *)
(** ** Further properties of the code *)


(* ------------------------------------------------------------------ *)
(** ** More of the store *)

#[global] Instance kind_eq_dec : EqDecision kind.
Proof. solve_decision. Defined.

Lemma bind_row_length k d r : bind_row k d = inr r -> length r = length (columns k).
Proof.
  unfold bind_row. rewrite mapM_exn_Forall2. intros H. apply Forall2_length in H.
  rewrite <- H. unfold numbered_columns. rewrite length_zip_with, length_seq. lia.
Qed.

Lemma sql_eq_text s s' : sql_eq (SText s) (SText s') = String.eqb s s'.
Proof. reflexivity. Qed.

(** X1: inserting a video whose fields bind and whose id is the string
    [v] makes [get_video v] return exactly the row built from that record,
    while [get_video] of any other id answers as before the insert. *)
Theorem get_video_after_insert_video d r v w :
  bind_row KVideo d = inr r -> pyget d "id" = PyJ (JStr v) ->
  exists w',
    insert_video d w = (w', inr tt) /\
    get_video v w' = (w', inr (Some (row_to_dict KVideo r))) /\
    forall v', v' <> v -> get_video v' w' = (w', inr (select_video v' (w_db w))).
Proof.
  intros Hb Hid. pose proof (bind_row_text_id d r v Hb Hid) as Hr.
  eexists. split; [exact (upsert_ok KVideo d r w Hb)|].
  unfold get_video, read_db. cbn [w_db]. split.
  - rewrite select_video_upsert, Hr, sql_eq_text, String.eqb_refl. reflexivity.
  - intros v' Hne. rewrite select_video_upsert, Hr, sql_eq_text.
    destruct (String.eqb_spec v v') as [->|_]; [congruence|reflexivity].
Qed.

(** X2: a video whose id is the integer [z] is stored under the text
    [str(z)] (the TEXT affinity of the id column), so [get_video (str z)]
    finds it. *)
Theorem insert_video_int_id_found_as_text d r z w :
  bind_row KVideo d = inr r -> pyget d "id" = PyJ (JNum z) ->
  exists w',
    insert_video d w = (w', inr tt) /\
    get_video (pretty z) w' = (w', inr (Some (row_to_dict KVideo r))).
Proof.
  intros Hb Hid. destruct (bind_row_id _ _ _ Hb) as (x & Hx & Hr).
  rewrite Hid in Hx. cbn in Hx. case_match; [|discriminate].
  inversion Hx; subst x. cbn in Hr.
  eexists. split; [exact (upsert_ok KVideo d r w Hb)|].
  unfold get_video, read_db. cbn [w_db].
  rewrite select_video_upsert, Hr, sql_eq_text, String.eqb_refl. reflexivity.
Qed.

(** The non-NULL primary keys of a table, in scan order. *)
Definition non_null_ids (t : list (list sqlval)) : list sqlval :=
  omap (fun r => match row_id r with SNull => None | v => Some v end) t.

(** The PRIMARY KEY constraint: no two rows of a table share a non-NULL
    id. *)
Definition keys_unique (d : db) : Prop :=
  forall k, NoDup (non_null_ids (get_table k d)).

(** Every row has one value per column of its table. *)
Definition well_formed (d : db) : Prop :=
  forall k, Forall (fun r => length r = length (columns k)) (get_table k d).

Lemma elem_of_non_null_ids x t :
  x ∈ non_null_ids t <-> x <> SNull /\ exists r, r ∈ t /\ row_id r = x.
Proof.
  unfold non_null_ids. rewrite list_elem_of_omap. split.
  - intros (r & Hr & Hx). destruct (row_id r) eqn:E; inversion Hx; subst;
      (split; [discriminate|eauto]).
  - intros (Hx & r & Hr & <-). exists r. split; [exact Hr|].
    destruct (row_id r); [congruence|reflexivity..].
Qed.

Lemma non_null_ids_filter (P : list sqlval -> Prop) `{!forall x, Decision (P x)} t :
  NoDup (non_null_ids t) -> NoDup (non_null_ids (filter P t)).
Proof.
  induction t as [|r t IH]; intros Hnd; [constructor|].
  rewrite filter_cons. unfold non_null_ids in *. rewrite omap_cons in Hnd.
  destruct (decide (P r)); rewrite ?omap_cons;
    destruct (row_id r) eqn:E; try (apply IH; exact Hnd);
    apply NoDup_cons in Hnd as [Hn Hnd]; try (apply IH; exact Hnd);
    constructor; try (apply IH; exact Hnd);
    intros Hin; apply Hn; apply elem_of_non_null_ids in Hin as (Hne & r' & Hr' & Hid);
    apply elem_of_non_null_ids; (split; [exact Hne|]); exists r';
    (split; [by apply list_elem_of_filter in Hr' as [_ ?]|exact Hid]).
Qed.

Lemma insert_or_replace_keys_unique r t :
  NoDup (non_null_ids t) -> NoDup (non_null_ids (insert_or_replace r t)).
Proof.
  intros Hnd. unfold insert_or_replace, non_null_ids. rewrite omap_app.
  apply NoDup_app. split; [by apply non_null_ids_filter|]. split.
  - intros x Hx Hx'. fold (non_null_ids [r]) in Hx'.
    apply elem_of_non_null_ids in Hx' as (Hne & r1 & Hr1 & Hid1).
    apply list_elem_of_singleton in Hr1; subst r1.
    fold (non_null_ids (filter (fun r' => negb (sql_eq (row_id r') (row_id r))) t)) in Hx.
    apply elem_of_non_null_ids in Hx as (_ & r' & Hr' & Hid').
    apply list_elem_of_filter in Hr' as [Hf _].
    rewrite Hid', Hid1, sql_eq_refl in Hf by exact Hne. exact Hf.
  - cbn. destruct (row_id r); repeat constructor; intros Hc; inversion Hc.
Qed.

(** X3: an upsert, successful or not, keeps the non-NULL ids of every
    table pairwise distinct (the PRIMARY KEY constraint). *)
Theorem upsert_keeps_keys_unique k data w :
  keys_unique (w_db w) -> keys_unique (w_db (upsert k data w).1).
Proof.
  intros Hu. destruct (bind_row k data) as [e|r] eqn:Hb.
  - by rewrite (upsert_fail k data e w Hb).
  - rewrite (upsert_ok k data r w Hb). cbn [fst w_db]. intros k'.
    unfold upsert_table. destruct (decide (k' = k)) as [->|Hne].
    + rewrite get_set_table. apply insert_or_replace_keys_unique, Hu.
    + rewrite get_set_table_other by exact Hne. apply Hu.
Qed.

Lemma upsert_keeps_keys_unique_witness :
  keys_unique (w_db empty_world) /\
  keys_unique (w_db (upsert KVideo (video_v1 "new") empty_world).1).
Proof.
  assert (H0 : keys_unique (w_db empty_world)) by (intros []; constructor).
  split; [exact H0|]. exact (upsert_keeps_keys_unique KVideo (video_v1 "new") empty_world H0).
Defined.

#[global] Instance sqlval_eq_dec : EqDecision sqlval.
Proof. solve_decision. Defined.

Lemma bind_row_item_playlist d r pid :
  bind_row KPlaylistItem d = inr r -> pyget d "playlistId" = PyJ (JStr pid) ->
  nth 2 r SNull = SText pid.
Proof.
  intros Hb Hp. destruct (bind_row_lookup KPlaylistItem d r 2 "playlistId" AText Hb eq_refl)
    as (v & Hv & Hr). rewrite Hp in Hv. cbn in Hv. inversion Hv; subst v.
  apply nth_lookup_Some with (d := SNull) in Hr. exact Hr.
Qed.

(** X5: after inserting a playlist item with a non-NULL id and playlist
    id [pid], [get_playlist_items pid'] returns the earlier matching rows
    of other ids, in scan order, followed by the new row when [pid' = pid]. *)
Theorem insert_playlist_item_listing d r pid w :
  bind_row KPlaylistItem d = inr r -> pyget d "id" <> PyJ JNull ->
  pyget d "playlistId" = PyJ (JStr pid) ->
  exists w',
    insert_playlist_item d w = (w', inr tt) /\
    forall pid',
      get_playlist_items pid' w' =
        (w', inr (map (row_to_dict KPlaylistItem)
                    (filter (fun r' => sql_eq (nth 2 r' SNull) (SText pid') = true /\
                                       sql_eq (row_id r') (row_id r) = false)
                       (t_playlist_item (w_db w)))
                  ++ if String.eqb pid pid' then [row_to_dict KPlaylistItem r] else [])).
Proof.
  intros Hb Hid Hp. pose proof (bind_row_id_not_null _ _ _ Hb Hid) as Hnn.
  pose proof (bind_row_item_playlist d r pid Hb Hp) as Hr2.
  eexists. split; [exact (upsert_ok KPlaylistItem d r w Hb)|]. intros pid'.
  unfold get_playlist_items, read_db, select_playlist_items. cbn [w_db upsert_table].
  f_equal. f_equal. cbn [get_table set_table t_playlist_item].
  unfold upsert_table. cbn [get_table set_table t_playlist_item].
  unfold insert_or_replace. rewrite filter_app, list_filter_filter, map_app.
  cbn [filter list_filter]. rewrite Hr2, sql_eq_text. f_equal.
  - f_equal. apply filter_ext_in. intros x _.
    destruct (sql_eq (nth 2 x SNull) (SText pid')), (sql_eq (row_id x) (row_id r));
      cbn; split; intros H; try tauto; try (destruct H; congruence); try (destruct H as [_ H]; exact H).
  - destruct (String.eqb pid pid'); [rewrite decide_True by exact I|rewrite decide_False by (intros Hc; exact Hc)]; reflexivity.
Qed.

Lemma for_in_upsert k recs rows w :
  mapM_exn (bind_row k) recs = inr rows ->
  for_in (upsert k) recs w = (mkWorld (upsert_rows k (w_db w) rows) (w_log w) (w_out w), inr tt).
Proof.
  revert rows w. induction recs as [|d recs IH]; intros rows w Hb.
  - inversion Hb; subst. by destruct w.
  - cbn [mapM_exn] in Hb. unfold exn_bind in Hb.
    destruct (bind_row k d) as [e|r] eqn:Er; [discriminate|].
    destruct (mapM_exn (bind_row k) recs) as [e|rows'] eqn:Ers; [discriminate|].
    inversion Hb; subst rows. cbn [for_in].
    rewrite (bind_inr _ _ w _ _ (upsert_ok k d r w Er)).
    rewrite (IH rows' _ eq_refl). reflexivity.
Qed.

Lemma foldl_insert_or_replace_distinct rows t :
  NoDup (map row_id rows) -> Forall (fun r => exists s, row_id r = SText s) rows ->
  foldl (fun t r => insert_or_replace r t) t rows =
  filter (fun r => row_id r ∉ map row_id rows) t ++ rows.
Proof.
  revert t. induction rows as [|r rows IH]; intros t Hnd Hnn.
  - cbn. rewrite app_nil_r. induction t as [|x t IHt]; [reflexivity|].
    rewrite filter_cons_True by (intros Hc; inversion Hc). by rewrite <- IHt.
  - cbn [map] in Hnd. apply NoDup_cons in Hnd as [Hr Hnd].
    apply Forall_cons in Hnn as [Hrn Hnn]. cbn [foldl].
    rewrite IH by assumption. unfold insert_or_replace.
    rewrite filter_app, list_filter_filter, <- app_assoc.
    rewrite filter_cons_True by exact Hr. cbn [filter list_filter].
    f_equal. apply filter_ext_in. intros x _. cbn [map].
    rewrite elem_of_cons. destruct (sql_eq (row_id x) (row_id r)) eqn:E; cbn.
    + destruct Hrn as [s Hs]. rewrite Hs in E |- *. apply sql_eq_text_r in E.
      rewrite E. tauto.
    + split.
      * intros [H1 _] [Hc|Hc]; [|exact (H1 Hc)].
        rewrite Hc, sql_eq_refl in E by (destruct Hrn as [s ->]; discriminate).
        discriminate.
      * intros Hc. split; [intros Hc'; apply Hc; right; exact Hc'|exact I].
Qed.

(** X6: inserting a list of playlists with distinct non-NULL ids one by
    one, then reading them back with [YouTubeDatabase.get_all_playlists],
    gives the earlier rows whose id was not re-inserted, then the new rows
    in insertion order; nothing is requested or printed. *)
Theorem db_get_all_playlists_after_inserts recs rows w :
  mapM_exn (bind_row KPlaylist) recs = inr rows ->
  NoDup (map row_id rows) -> Forall (fun r => row_id r <> SNull) rows ->
  exists w',
    for_in insert_playlist recs w = (w', inr tt) /\
    w_log w' = w_log w /\ w_out w' = w_out w /\
    db_get_all_playlists w' =
      (w', inr (map (row_to_dict KPlaylist)
                  (filter (fun r => row_id r ∉ map row_id rows) (t_playlist (w_db w)) ++ rows))).
Proof.
  intros Hb Hnd Hnn.
  assert (Ht : Forall (fun r => exists s, row_id r = SText s) rows).
  { apply mapM_exn_Forall2 in Hb. clear Hnd.
    induction Hb as [|d r recs' rows' Hdr _ IH]; [constructor|].
    apply Forall_cons in Hnn as [Hr Hnn].
    constructor; [exact (bind_row_id_text _ _ _ Hdr Hr)|exact (IH Hnn)]. }
  exists (mkWorld (upsert_rows KPlaylist (w_db w) rows) (w_log w) (w_out w)).
  split; [exact (for_in_upsert KPlaylist recs rows w Hb)|].
  split; [reflexivity|]. split; [reflexivity|].
  unfold db_get_all_playlists, read_db, select_all_playlists. cbn [w_db].
  change (t_playlist (upsert_rows KPlaylist (w_db w) rows))
    with (get_table KPlaylist (upsert_rows KPlaylist (w_db w) rows)).
  rewrite get_table_upsert_rows. cbn [get_table].
  rewrite foldl_insert_or_replace_distinct by assumption. reflexivity.
Qed.

Lemma mapM_exn_first {A B} (f : A -> exn + B) l j x e :
  l !! j = Some x -> f x = inl e ->
  (forall j' x', j' < j -> l !! j' = Some x' -> exists y, f x' = inr y) ->
  mapM_exn f l = inl e.
Proof.
  revert j. induction l as [|x0 l IH]; intros j Hj Hf Hpre; [discriminate|].
  cbn [mapM_exn]. unfold exn_bind. destruct j as [|j].
  - injection Hj as ->. by rewrite Hf.
  - destruct (Hpre 0 x0) as [y Hy]; [lia|reflexivity|]. rewrite Hy.
    rewrite (IH j Hj Hf); [reflexivity|].
    intros j' x' Hlt Hx'. apply (Hpre (S j') x'); [lia|exact Hx'].
Qed.

(** X7: the parameters of an upsert are bound in column order, and the
    first one that does not bind decides the outcome: when every column
    before the [j]-th binds and the [j]-th does not, the upsert raises the
    error of that parameter (number [j + 1]) and leaves the whole state
    unchanged. *)
Theorem upsert_first_binding_error k data j c a e w :
  columns k !! j = Some (c, a) ->
  (forall j' c' a', j' < j -> columns k !! j' = Some (c', a') ->
                    exists v, bind_param (S j') (pyget data c') = inr v) ->
  bind_param (S j) (pyget data c) = inl e ->
  upsert k data w = (w, inl e).
Proof.
  intros Hj Hpre He. apply upsert_fail. unfold bind_row.
  apply (mapM_exn_first _ _ j (S j, (c, a))).
  - rewrite numbered_columns_lookup, Hj. reflexivity.
  - cbn [fst snd]. unfold exn_bind. by rewrite He.
  - intros j' x' Hlt Hx'. rewrite numbered_columns_lookup in Hx'.
    destruct (columns k !! j') as [[c' a']|] eqn:Hc; [|discriminate].
    injection Hx' as <-. destruct (Hpre j' c' a' Hlt Hc) as [v Hv].
    exists (apply_affinity a' v). cbn [fst snd]. unfold exn_bind. by rewrite Hv.
Qed.

Lemma mapM_exn_ext_in {A B} (f g : A -> exn + B) (l : list A) :
  (forall x, x ∈ l -> f x = g x) -> mapM_exn f l = mapM_exn g l.
Proof.
  induction l as [|x l IH]; intros H; [reflexivity|]. cbn [mapM_exn].
  rewrite (H x) by left. rewrite IH by (intros y Hy; apply H; right; exact Hy). reflexivity.
Qed.

(** X8: an upsert reads only the keys named by the table's columns: two
    records agreeing on those keys have the same effect. *)
Theorem upsert_reads_only_columns k d1 d2 :
  (forall c, c ∈ map fst (columns k) -> pyget d1 c = pyget d2 c) ->
  upsert k d1 = upsert k d2.
Proof.
  intros H. unfold upsert. f_equal. f_equal. unfold bind_row. apply mapM_exn_ext_in.
  intros [i [c a]] Hca. cbn [fst snd]. rewrite (H c); [reflexivity|].
  apply list_elem_of_fmap. exists (c, a). split; [reflexivity|].
  apply list_elem_of_lookup_1 in Hca as [j Hj]. rewrite numbered_columns_lookup in Hj.
  destruct (columns k !! j) as [ca|] eqn:E; [|discriminate].
  injection Hj; intros; subst. by apply list_elem_of_lookup_2 with j.
Qed.

(** The items of the stored playlist row [pr] whose video is stored: the
    videos [print_playlist_data] lists under it. *)
Definition listed_items (d : db) (pr : list sqlval) : list (list sqlval) :=
  filter (fun it => is_Some (select_video_by (nth 3 it SNull) d))
    (filter (fun it => sql_eq (nth 2 it SNull) (apply_affinity AText (row_id pr)))
       (t_playlist_item d)).

Definition listed_videos (d : db) : nat :=
  sum_list (map (fun pr => length (listed_items d pr)) (t_playlist d)).

Lemma for_in_map {A B} (f : B -> M unit) (g : A -> B) l :
  for_in f (map g l) = for_in (fun x => f (g x)) l.
Proof. induction l as [|x l IH]; [reflexivity|]. cbn. by rewrite IH. Qed.

Lemma for_in_count {A} (f : A -> M unit) (n : A -> nat) D l w :
  w_db w = D ->
  (forall x w', x ∈ l -> w_db w' = D ->
     exists out, f x w' = (mkWorld D (w_log w') (w_out w' ++ out), inr tt) /\ length out = n x) ->
  exists out, for_in f l w = (mkWorld D (w_log w) (w_out w ++ out), inr tt) /\
              length out = sum_list (map n l).
Proof.
  revert w. induction l as [|x l IH]; intros w Hw Hf.
  - exists []. rewrite app_nil_r. destruct w; cbn in *; subst. split; reflexivity.
  - destruct (Hf x w ltac:(left) Hw) as (o1 & H1 & L1).
    destruct (IH (mkWorld D (w_log w) (w_out w ++ o1)) eq_refl) as (o2 & H2 & L2).
    { intros y w' Hy. apply Hf. right. exact Hy. }
    exists (o1 ++ o2). cbn [for_in]. rewrite (bind_inr _ _ w _ _ H1), H2.
    cbn [w_log w_out]. rewrite app_assoc, length_app, L1, L2. split; reflexivity.
Qed.

Lemma select_video_by_row p d v :
  select_video_by p d = Some v -> exists vr, vr ∈ t_video d /\ v = row_to_dict KVideo vr.
Proof.
  unfold select_video_by.
  destruct (filter _ (t_video d)) as [|vr rs] eqn:E; [discriminate|]. intros Hv.
  inversion Hv; subst. exists vr. split; [|reflexivity].
  assert (Hin : vr ∈ vr :: rs) by left. rewrite <- E in Hin.
  by apply list_elem_of_filter in Hin as [_ ?].
Qed.

Lemma print_item_out D it w :
  well_formed D -> length it = 5 -> w_db w = D ->
  exists out,
    print_item (row_to_dict KPlaylistItem it) w =
      (mkWorld D (w_log w) (w_out w ++ out), inr tt) /\
    length out = if decide (is_Some (select_video_by (nth 3 it SNull) D)) then 4 else 0.
Proof.
  intros Hwf Hlen Hw.
  destruct it as [|a [|b [|c [|e [|f [|]]]]]]; cbn in Hlen; try lia. cbn [nth].
  unfold print_item. rewrite (bind_inr _ _ w w _ eq_refl).
  unfold read_db at 1. rewrite (bind_inr _ _ w w _ eq_refl). rewrite Hw. cbn [fst snd].
  destruct (select_video_by e D) as [v|] eqn:Ev.
  - destruct (select_video_by_row _ _ _ Ev) as (vr & Hvr & ->).
    pose proof (proj1 (Forall_forall _ _) (Hwf KVideo) vr Hvr) as Hl. cbn in Hl.
    destruct vr as [|v0 [|v1 [|v2 [|v3 [|v4 [|v5 [|v6 [|]]]]]]]]; cbn in Hl; try lia.
    rewrite decide_True by (eexists; reflexivity).
    destruct w as [d lg o]. cbn in Hw. subst d.
    unfold bind, lift, print, ret. cbn. rewrite <- !app_assoc. cbn.
    eexists. split; [reflexivity|]. reflexivity.
  - rewrite decide_False by (intros [? Hc]; discriminate Hc).
    exists []. destruct w as [d lg o]. cbn in Hw |- *. subst d. by rewrite app_nil_r.
Qed.

Lemma sum_list_decide_4 (P : list sqlval -> Prop) `{!forall x, Decision (P x)} l :
  sum_list (map (fun x => if decide (P x) then 4 else 0) l) = 4 * length (filter P l).
Proof.
  induction l as [|x l IH]; [reflexivity|]. cbn [map sum_list]. rewrite IH.
  destruct (decide (P x)) as [Hp|Hp];
    [rewrite filter_cons_True by exact Hp|rewrite filter_cons_False by exact Hp];
    cbn [length id]; lia.
Qed.

Lemma print_playlist_out D pr w :
  well_formed D -> length pr = 7 -> w_db w = D ->
  exists out,
    print_playlist (row_to_dict KPlaylist pr) w =
      (mkWorld D (w_log w) (w_out w ++ out), inr tt) /\
    length out = 4 + 4 * length (listed_items D pr).
Proof.
  intros Hwf Hlen Hw. destruct w as [d lg o]. cbn in Hw. subst d.
  destruct pr as [|p0 [|p1 [|p2 [|p3 [|p4 [|p5 [|p6 [|]]]]]]]]; cbn in Hlen; try lia.
  unfold print_playlist, bind at 1 2 3 4 5 6 7 8 9, lift, print, read_db. cbn.
  unfold select_playlist_items_by. rewrite for_in_map.
  match goal with
  | |- context [for_in ?f ?l ?w0] =>
      destruct (for_in_count f
                  (fun it => if decide (is_Some (select_video_by (nth 3 it SNull) D)) then 4 else 0)
                  D l w0 eq_refl) as (out & Hrun & Hout)
  end.
  { intros it w' Hit Hw'. apply print_item_out; [exact Hwf| |exact Hw'].
    apply list_elem_of_filter in Hit as [_ Hit].
    exact (proj1 (Forall_forall _ _) (Hwf KPlaylistItem) it Hit). }
  rewrite Hrun. cbn [w_log w_out]. rewrite <- !app_assoc. cbn.
  eexists. split; [reflexivity|]. cbn [length]. rewrite Hout, sum_list_decide_4.
  unfold listed_items. cbn [row_id nth]. lia.
Qed.

Lemma sum_list_4 {A} (n : A -> nat) l :
  sum_list (map (fun x => 4 + 4 * n x) l) = 4 * length l + 4 * sum_list (map n l).
Proof. induction l as [|x l IH]; [reflexivity|]. cbn [map sum_list length]. rewrite IH. unfold id. lia. Qed.

(** X10: on a Store whose rows are well formed, [print_playlist_data]
    changes nothing but the output: it prints the header and a rule, then
    four lines per playlist and four more per item of it whose video is
    stored; items of unknown videos print nothing. *)
Theorem print_playlist_data_output w :
  well_formed (w_db w) ->
  exists rest,
    print_playlist_data w =
      (mkWorld (w_db w) (w_log w)
         (w_out w ++
          [newline +:+ "Found " +:+ pretty (length (t_playlist (w_db w))) +:+ " playlists:";
           str_repeat 50 "-"] ++ rest), inr tt) /\
    length rest = 4 * length (t_playlist (w_db w)) + 4 * listed_videos (w_db w).
Proof.
  intros Hwf. destruct w as [D lg o]. cbn [w_db w_log w_out] in *.
  unfold print_playlist_data, db_get_all_playlists, bind at 1 2 3, read_db, print.
  cbn [w_db w_log w_out]. unfold select_all_playlists. rewrite length_map, for_in_map.
  destruct (for_in_count (fun pr => print_playlist (row_to_dict KPlaylist pr))
              (fun pr => 4 + 4 * length (listed_items D pr)) D (t_playlist D)
              (mkWorld D lg ((o ++ [newline +:+ "Found " +:+ pretty (length (t_playlist D)) +:+ " playlists:"])
                              ++ [str_repeat 50 "-"])) eq_refl) as (out & Hrun & Hout).
  { intros pr w' Hpr Hw'. apply print_playlist_out; [exact Hwf| |exact Hw'].
    exact (proj1 (Forall_forall _ _) (Hwf KPlaylist) pr Hpr). }
  rewrite Hrun. cbn [w_log w_out]. exists out. rewrite <- !app_assoc. split; [reflexivity|].
  rewrite Hout, sum_list_4. reflexivity.
Qed.



(** A remote serving the pages [pages] whose last page names the token
    [tf] as the next one. *)
Fixpoint serves_then (api : json -> exn + json) (pages : list (json * list json))
    (tf : json) : Prop :=
  match pages with
  | [] => True
  | (t, its) :: rest =>
      api t = inr (page_response its (Some (default tf (option_map fst (head rest))))) /\
      serves_then api rest tf
  end.

Section PaginateError.

Context {A : Type}.
Variable req : json -> request.
Variable api : json -> exn + json.
Variable handle : json -> M (list A).
Variable item_ok : json -> Prop.
Variable effect : json -> db -> db.
Variable requests : json -> list request.
Variable out : json -> list A.
Hypothesis Hhandle : forall it w, item_ok it ->
  handle it w = (mkWorld (effect it (w_db w)) (w_log w ++ requests it) (w_out w), inr (out it)).

Lemma paginate_error rest t its tf e fuel w :
  serves_then api ((t, its) :: rest) tf ->
  Forall (fun p => truthy p.1 = true) rest -> truthy tf = true -> api tf = inl e ->
  S (length rest) < fuel ->
  Forall item_ok (concat (map snd ((t, its) :: rest))) ->
  paginate (fun tok => send (req tok) ;;; lift (api tok)) handle fuel t w =
  (mkWorld (foldl (fun d it => effect it d) (w_db w) (concat (map snd ((t, its) :: rest))))
           (w_log w ++ concat (map (fun p => req p.1 :: concat (map requests p.2))
                                   ((t, its) :: rest)) ++ [req tf])
           (w_out w),
   inl e).
Proof.
  revert t its fuel w.
  induction rest as [|[t' its'] rest IH]; intros t its fuel w Hs Ht Htf He Hf Hok;
    (destruct fuel as [|fuel]; [simpl in Hf; lia|]);
    destruct Hs as [Ha Hs]; cbn [concat map snd fst] in Hok |- *;
    apply Forall_app in Hok as [Hok1 Hok2];
    cbn [paginate]; unfold bind at 1; unfold bind at 1; unfold send at 1;
    unfold lift at 1; rewrite Ha;
    unfold bind at 1; unfold lift at 1; rewrite getitem_page;
    unfold bind at 1; unfold lift at 1; cbn [py_iter];
    unfold bind at 1; rewrite (for_each_run handle item_ok effect requests out Hhandle its _ Hok1);
    unfold bind at 1; unfold lift at 1; rewrite next_page; cbn [head option_map fst default].
  - rewrite Htf. destruct fuel as [|fuel]; [simpl in Hf; lia|].
    cbn [paginate]. unfold bind, send, lift. cbn [w_db w_log w_out]. rewrite He.
    cbn [foldl concat map]. rewrite !app_nil_r, <- !app_assoc. reflexivity.
  - apply Forall_cons in Ht as [Ht' Ht]. cbn [fst] in Ht'. unfold id. rewrite Ht'.
    unfold bind at 1.
    rewrite (IH t' its' fuel _ Hs Ht Htf He) by (simpl in Hf; lia || exact Hok2).
    cbn [w_db w_log w_out concat map fst snd].
    rewrite ?foldl_app, <- ?app_assoc. cbn [app]. rewrite <- ?app_assoc. reflexivity.
Qed.

End PaginateError.

(** X11: when the remote fails on a page token of the playlist listing,
    [get_all_playlists] raises that error after storing the playlists of
    all the earlier pages; every page up to the failing one is requested. *)
Theorem get_all_playlists_page_error api_playlists fromisoformat its0 rest tf e fuel w recs rows :
  serves_then api_playlists ((JNull, its0) :: rest) tf ->
  Forall (fun p => truthy p.1 = true) rest -> truthy tf = true ->
  api_playlists tf = inl e ->
  S (length rest) < fuel ->
  mapM_exn (normalize_playlist fromisoformat) (concat (map snd ((JNull, its0) :: rest))) = inr recs ->
  mapM_exn (bind_row KPlaylist) recs = inr rows ->
  get_all_playlists api_playlists fromisoformat fuel w =
    (mkWorld (upsert_rows KPlaylist (w_db w) rows)
             (w_log w ++ map (fun p => ReqPlaylists p.1) ((JNull, its0) :: rest) ++ [ReqPlaylists tf])
             (w_out w),
     inl e).
Proof.
  intros Hs Ht Htf He Hf Hn Hb.
  destruct (playlists_normalized fromisoformat _ recs rows Hn Hb) as (Hok & _ & Hdb).
  unfold get_all_playlists.
  rewrite (paginate_error ReqPlaylists api_playlists (handle_playlist fromisoformat)
             (playlist_ok fromisoformat) (playlist_effect fromisoformat) (fun _ => [])
             (playlist_out fromisoformat) (handle_playlist_ok fromisoformat)
             rest JNull its0 tf e fuel w Hs Ht Htf He Hf Hok).
  by rewrite Hdb, pages_requests_nil.
Qed.










Lemma strip_some p r r' : strip p r = Some r' -> r = p +:+ r'.
Proof.
  revert r. induction p as [|c p IH]; intros r H.
  - cbn in H. inversion H. reflexivity.
  - destruct r as [|d r]; [discriminate|]. cbn in H.
    destruct (Ascii.eqb_spec c d) as [->|_]; [|discriminate].
    rewrite (IH r H). reflexivity.
Qed.

(** The longest run of [[a-zA-Z0-9_-]] at the front of a string, and what
    follows it. *)
Fixpoint id_span (r : string) : string * string :=
  match r with
  | String c r' =>
      if id_char c then let (a, b) := id_span r' in (String c a, b) else (EmptyString, r)
  | EmptyString => (EmptyString, EmptyString)
  end.

Lemma id_span_app r : r = (id_span r).1 +:+ (id_span r).2.
Proof.
  induction r as [|c r IH]; [reflexivity|]. cbn.
  destruct (id_char c); [|reflexivity].
  destruct (id_span r) as [a b]. cbn in *. rewrite str_app_cons. congruence.
Qed.

Lemma id_span_rest r c r' :
  (id_span r).2 = String c r' -> id_char c = false.
Proof.
  induction r as [|d r IH]; cbn; [discriminate|].
  destruct (id_char d) eqn:Ed.
  - destruct (id_span r) as [a b]. cbn in *. exact IH.
  - intros H. inversion H; subst. exact Ed.
Qed.

Lemma run_longest {R} (k : string -> string -> option R) acc r x :
  k (acc +:+ (id_span r).1) (id_span r).2 = Some x -> run k acc r = Some x.
Proof.
  revert acc. induction r as [|c r IH]; intros acc; cbn.
  - rewrite str_app_nil_r. auto.
  - destruct (id_char c).
    + destruct (id_span r) as [a b] eqn:E. cbn. intros H.
      rewrite (IH (acc +:+ String c EmptyString)); [reflexivity|].
      rewrite <- str_app_assoc. exact H.
    + rewrite str_app_nil_r. auto.
Qed.

Lemma run_shortcut {R} (k : string -> string -> option R) acc r x :
  (forall g c r', id_char c = true -> k g (String c r') = None) ->
  run k acc r = Some x -> k (acc +:+ (id_span r).1) (id_span r).2 = Some x.
Proof.
  intros Hk. revert acc. induction r as [|c r IH]; intros acc; cbn.
  - rewrite str_app_nil_r. auto.
  - destruct (id_char c) eqn:Ec.
    + destruct (run k (acc +:+ String c EmptyString) r) eqn:E.
      * intros H. inversion H; subst. apply IH in E.
        destruct (id_span r) as [a b]. cbn in *. rewrite <- str_app_assoc in E. exact E.
      * rewrite Hk by exact Ec. discriminate.
    + rewrite str_app_nil_r. auto.
Qed.

Definition k_raw (g rest : string) : option (string * string) := Some (g, rest).

Definition k_md (g rest : string) : option (string * string) :=
  match strip ")" rest with Some rest' => Some (g, rest') | None => None end.

Lemma k_md_id g c r : id_char c = true -> k_md g (String c r) = None.
Proof.
  intros Hc. unfold k_md. cbn [strip]. destruct (Ascii.eqb_spec ")" c) as [<-|_]; [discriminate|reflexivity].
Qed.

Lemma plus_md_raw r g rest :
  plus k_md r = Some (g, rest) -> plus k_raw r = Some (g, String ")" rest).
Proof.
  unfold plus. destruct r as [|c r]; [discriminate|]. destruct (id_char c); [|discriminate].
  intros H. apply run_shortcut in H; [|exact k_md_id]. apply run_longest.
  unfold k_md in H. destruct (strip ")" (id_span r).2) as [r'|] eqn:E; [|discriminate].
  inversion H; subst. apply strip_some in E. rewrite E. reflexivity.
Qed.

Lemma opt_transfer {A B} p (K1 : string -> option A) (K2 : string -> option B) (h : A -> B) r x :
  (forall r0 y, K1 r0 = Some y -> K2 r0 = Some (h y)) ->
  (forall r', strip p r = Some r' -> K1 r = None) ->
  opt p K1 r = Some x -> opt p K2 r = Some (h x).
Proof.
  intros HK Hn. unfold opt. destruct (strip p r) as [r'|] eqn:E.
  - destruct (K1 r') as [y|] eqn:E1.
    + intros H. inversion H; subst. by rewrite (HK r' x E1).
    + rewrite (Hn r' eq_refl). discriminate.
  - intros H. by rewrite (HK r x H).
Qed.

Definition close_paren (x : string * string) : string * string := (x.1, String ")" x.2).

Lemma url_md_raw r g rest :
  url k_md r = Some (g, rest) -> url k_raw r = Some (g, String ")" rest).
Proof.
  unfold url. destruct (strip "http" r) as [r1|]; [|discriminate].
  intros H. change (Some (g, String ")" rest)) with (Some (close_paren (g, rest))).
  revert H. apply opt_transfer.
  - intros r2 y. destruct (strip "://" r2) as [r3|]; [|discriminate].
    apply opt_transfer.
    + intros r4 z. destruct (strip "youtube.com/watch?v=" r4) as [r5|]; [|discriminate].
      destruct z as [g' rest']. apply plus_md_raw.
    + intros r4 Hs. apply strip_some in Hs. rewrite Hs. reflexivity.
  - intros r' Hs. apply strip_some in Hs. rewrite Hs. reflexivity.
Qed.

(** [c] does not occur in [s]. *)
Fixpoint no_char (c : ascii) (s : string) : bool :=
  match s with
  | EmptyString => true
  | String d s' => negb (Ascii.eqb c d) && no_char c s'
  end.

Lemma no_char_app c a b : no_char c (a +:+ b) = no_char c a && no_char c b.
Proof.
  induction a as [|d a IH]; [reflexivity|]. rewrite str_app_cons. cbn [no_char].
  rewrite IH. by destruct (negb (Ascii.eqb c d)), (no_char c a).
Qed.

Lemma no_char_ids s : all_id_chars s = true -> no_char "(" s = true.
Proof.
  induction s as [|d s IH]; [reflexivity|]. cbn [all_id_chars no_char].
  intros H. apply andb_prop in H as [Hd Hs]. rewrite (IH Hs), andb_true_r.
  destruct (Ascii.eqb_spec "(" d) as [<-|_]; [discriminate Hd|reflexivity].
Qed.

Lemma id_span_ids r : all_id_chars (id_span r).1 = true.
Proof.
  induction r as [|c r IH]; [reflexivity|]. cbn. destruct (id_char c) eqn:Ec; [|reflexivity].
  destruct (id_span r) as [a b]. cbn in *. by rewrite Ec, IH.
Qed.

Lemma opt_cases {A} p (K : string -> option A) r x :
  opt p K r = Some x -> (exists r', r = p +:+ r' /\ K r' = Some x) \/ K r = Some x.
Proof.
  unfold opt. destruct (strip p r) as [r'|] eqn:E; [|auto].
  destruct (K r') eqn:E1; intros H; [|auto]. inversion H; subst. left.
  exists r'. split; [exact (strip_some _ _ _ E)|exact E1].
Qed.

Lemma pat_raw_consumes t g rest :
  pat_raw t = Some (g, rest) -> exists m, t = m +:+ rest /\ no_char "(" m = true.
Proof.
  unfold pat_raw, url. destruct (strip "http" t) as [r1|] eqn:E1; [|discriminate].
  apply strip_some in E1. subst t. intros H.
  assert (Hstep : forall r2, (match strip "://" r2 with
            | Some r3 => opt "www." (fun r4 => match strip "youtube.com/watch?v=" r4 with
                                                 | Some r5 => plus (fun g0 rest0 => Some (g0, rest0)) r5
                                                 | None => None end) r3
            | None => None end) = Some (g, rest) ->
          exists m, r2 = m +:+ rest /\ no_char "(" m = true).
  { intros r2 H2. destruct (strip "://" r2) as [r3|] eqn:E3; [|discriminate].
    apply strip_some in E3. subst r2.
    assert (Hstep2 : forall r4, (match strip "youtube.com/watch?v=" r4 with
              | Some r5 => plus (fun g0 rest0 => Some (g0, rest0)) r5 | None => None end)
              = Some (g, rest) -> exists m, r4 = m +:+ rest /\ no_char "(" m = true).
    { intros r4 H4. destruct (strip "youtube.com/watch?v=" r4) as [r5|] eqn:E5; [|discriminate].
      apply strip_some in E5. subst r4. unfold plus in H4.
      destruct r5 as [|c r5]; [discriminate|]. destruct (id_char c) eqn:Ec; [|discriminate].
      rewrite (run_longest _ _ _ ((String c EmptyString +:+ (id_span r5).1), (id_span r5).2)) in H4
        by reflexivity.
      inversion H4; subst g rest.
      exists ("youtube.com/watch?v=" +:+ String c (id_span r5).1). split.
      - rewrite <- str_app_assoc. f_equal. rewrite str_app_cons, <- id_span_app. reflexivity.
      - rewrite no_char_app. cbn [no_char].
        destruct (Ascii.eqb_spec "(" c) as [<-|_]; [discriminate Ec|].
        rewrite (no_char_ids _ (id_span_ids r5)). reflexivity. }
    destruct (opt_cases _ _ _ _ H2) as [(r4 & -> & H4)|H4];
      destruct (Hstep2 _ H4) as (m & -> & Hm).
    - exists ("://" +:+ "www." +:+ m). rewrite <- !str_app_assoc. split; [reflexivity|].
      rewrite !no_char_app, Hm. reflexivity.
    - exists ("://" +:+ m). rewrite <- !str_app_assoc. split; [reflexivity|].
      rewrite !no_char_app, Hm. reflexivity. }
  destruct (opt_cases _ _ _ _ H) as [(r2 & -> & H2)|H2]; destruct (Hstep _ H2) as (m & -> & Hm).
  - exists ("http" +:+ "s" +:+ m). rewrite <- !str_app_assoc. split; [reflexivity|].
    rewrite !no_char_app, Hm. reflexivity.
  - exists ("http" +:+ m). rewrite <- !str_app_assoc. split; [reflexivity|].
    rewrite !no_char_app, Hm. reflexivity.
Qed.

Lemma str_length_app a b : String.length (a +:+ b) = (String.length a + String.length b)%nat.
Proof. induction a as [|c a IH]; [reflexivity|]. rewrite str_app_cons. cbn. lia. Qed.

Lemma prefix_no_paren m rest a u :
  m +:+ rest = a +:+ String "(" u -> no_char "(" m = true ->
  (String.length m <= String.length a)%nat.
Proof.
  revert a. induction m as [|d m IH]; intros a E Hm; cbn; [lia|].
  rewrite str_app_cons in E. cbn [no_char] in Hm. apply andb_prop in Hm as [Hd Hm].
  destruct a as [|e a].
  - cbn in E. inversion E; subst. discriminate Hd.
  - rewrite str_app_cons in E. inversion E; subst. cbn. specialize (IH a H1 Hm). lia.
Qed.

Section ScanParen.
Variable p : pattern.
Hypothesis Hp : forall t g rest, p t = Some (g, rest) ->
  exists m, t = m +:+ rest /\ no_char "(" m = true.

Lemma scan_head t x rest : p t = Some (x, rest) -> x ∈ scan p 0 t.
Proof. intros H. destruct t; cbn; rewrite H; left. Qed.

Lemma scan_past_paren a u n x :
  (n <= String.length a)%nat -> x ∈ scan p 0 u -> x ∈ scan p n (a +:+ String "(" u).
Proof.
  revert n. induction a as [|c a IH]; intros n Hn Hx.
  - cbn in Hn. assert (n = 0%nat) as -> by lia. rewrite str_app_nil_l. cbn [scan].
    destruct (p (String "(" u)) as [[g rest]|] eqn:E; [|exact Hx].
    destruct (Hp _ _ _ E) as (m & Em & Hm). destruct m as [|d m].
    + rewrite str_app_nil_l in Em. rewrite <- Em. cbn.
      rewrite Nat.sub_diag. right. exact Hx.
    + rewrite str_app_cons in Em. inversion Em; subst. cbn in Hm. discriminate Hm.
  - rewrite str_app_cons. cbn in Hn. destruct n as [|k]; cbn [scan].
    + destruct (p (String c (a +:+ String "(" u))) as [[g rest]|] eqn:E;
        [|apply IH; [lia|exact Hx]].
      right. apply IH; [|exact Hx].
      destruct (Hp _ _ _ E) as (m & Em & Hm).
      assert (Hle := prefix_no_paren m rest (String c a) u).
      rewrite str_app_cons in Hle. specialize (Hle (eq_sym Em) Hm). cbn in Hle.
      rewrite Em, str_length_app. destruct m as [|d m]; cbn in *; lia.
    + apply IH; [lia|exact Hx].
Qed.

End ScanParen.

Lemma scan_sound p n s x :
  x ∈ scan p n s -> exists a t rest, s = a +:+ t /\ p t = Some (x, rest).
Proof.
  revert n. induction s as [|c s IH]; intros n H; cbn in H.
  - destruct n; [|apply not_elem_of_nil in H; contradiction].
    destruct (p EmptyString) as [[g rest]|] eqn:E; [|apply not_elem_of_nil in H; contradiction].
    apply list_elem_of_singleton in H as ->. exists EmptyString, EmptyString, rest. auto.
  - destruct n as [|k].
    + destruct (p (String c s)) as [[g rest]|] eqn:E.
      * apply elem_of_cons in H as [->|H].
        -- exists EmptyString, (String c s), rest. auto.
        -- destruct (IH _ H) as (a & t & r & -> & Ht).
           exists (String c a), t, r. rewrite str_app_cons. auto.
      * destruct (IH _ H) as (a & t & r & -> & Ht).
        exists (String c a), t, r. rewrite str_app_cons. auto.
    + destruct (IH _ H) as (a & t & r & -> & Ht).
      exists (String c a), t, r. rewrite str_app_cons. auto.
Qed.

Lemma lazy_any_suffix {A} (k : string -> option A) r x :
  lazy_any k r = Some x -> exists pre r', r = pre +:+ r' /\ k r' = Some x.
Proof.
  induction r as [|c r IH]; cbn; destruct (k _) eqn:E; intros H.
  - inversion H; subst. exists EmptyString, EmptyString. auto.
  - discriminate.
  - inversion H; subst. exists EmptyString, (String c r). auto.
  - destruct (Ascii.eqb c "010"%char); [discriminate|].
    destruct (IH H) as (pre & r' & -> & Hr). exists (String c pre), r'.
    rewrite str_app_cons. auto.
Qed.

Lemma pat_md_split t x rest :
  pat_md t = Some (x, rest) ->
  exists a u, t = a +:+ String "(" u /\ url k_md u = Some (x, rest).
Proof.
  unfold pat_md. destruct (strip "[" t) as [r1|] eqn:E1; [|discriminate].
  apply strip_some in E1. subst t. intros H.
  destruct (lazy_any_suffix _ _ _ H) as (pre & r2 & -> & H2).
  destruct (strip "](" r2) as [r3|] eqn:E3; [|discriminate].
  apply strip_some in E3. subst r2.
  exists ("[" +:+ pre +:+ "]"), r3. split; [|exact H2].
  rewrite <- !str_app_assoc. reflexivity.
Qed.

Lemma findall_md_raw line x : x ∈ findall pat_md line -> x ∈ findall pat_raw line.
Proof.
  unfold findall. intros H.
  destruct (scan_sound _ _ _ _ H) as (a & t & rest & -> & Ht).
  destruct (pat_md_split _ _ _ Ht) as (b & u & -> & Hu).
  apply url_md_raw in Hu.
  rewrite str_app_assoc. apply scan_past_paren; [exact pat_raw_consumes|lia|].
  exact (scan_head pat_raw u x _ Hu).
Qed.

(** X15: the Markdown link pattern of [youtube_patterns] adds no id: the
    ids a line contributes in [extract_video_ids] are the matches of the
    raw URL pattern alone, since the URL inside [[...](...)] is itself a
    raw match. *)
Theorem ids_of_line_raw_only (S : gset string) line :
  ids_of_line S line = S ∪ list_to_set (findall pat_raw line).
Proof.
  apply leibniz_equiv. apply set_equiv. intros x. rewrite elem_of_ids_of_line, elem_of_union, elem_of_list_to_set.
  split; [|tauto]. intros [H|[H|H]]; auto using findall_md_raw.
Qed.


Lemma get_video_after_insert_video_witness :
  exists r,
    bind_row KVideo (video_v1 "new") = inr r /\ pyget (video_v1 "new") "id" = PyJ (JStr "v1") /\
    exists w',
      insert_video (video_v1 "new") world_with_v1 = (w', inr tt) /\
      get_video "v1" w' = (w', inr (Some (row_to_dict KVideo r))) /\
      forall v', v' <> "v1" -> get_video v' w' = (w', inr (select_video v' (w_db world_with_v1))).
Proof.
  eexists. split; [reflexivity|]. split; [reflexivity|].
  apply get_video_after_insert_video; reflexivity.
Defined.

(** A video record whose id arrives as a JSON number. *)
Definition video_num_id : pydict :=
  [("etag", PyJ (JStr "tag")); ("id", PyJ (JNum 42)); ("title", PyJ (JStr "t"))].

Lemma insert_video_int_id_found_as_text_witness :
  exists r,
    bind_row KVideo video_num_id = inr r /\ pyget video_num_id "id" = PyJ (JNum 42) /\
    exists w',
      insert_video video_num_id empty_world = (w', inr tt) /\
      get_video "42" w' = (w', inr (Some (row_to_dict KVideo r))).
Proof.
  eexists. split; [reflexivity|]. split; [reflexivity|].
  apply (insert_video_int_id_found_as_text video_num_id _ 42 empty_world); reflexivity.
Defined.

Definition item_i1 : pydict :=
  [("etag", PyJ (JStr "e")); ("id", PyJ (JStr "I1")); ("playlistId", PyJ (JStr "PL"));
   ("videoId", PyJ (JStr "v1")); ("position", PyJ (JNum 0))].

Lemma insert_playlist_item_listing_witness :
  exists r,
    bind_row KPlaylistItem item_i1 = inr r /\ pyget item_i1 "id" <> PyJ JNull /\
    pyget item_i1 "playlistId" = PyJ (JStr "PL") /\
    exists w',
      insert_playlist_item item_i1 empty_world = (w', inr tt) /\
      forall pid',
        get_playlist_items pid' w' =
          (w', inr (map (row_to_dict KPlaylistItem)
                      (filter (fun r' => sql_eq (nth 2 r' SNull) (SText pid') = true /\
                                         sql_eq (row_id r') (row_id r) = false)
                         (t_playlist_item (w_db empty_world)))
                    ++ if String.eqb "PL" pid' then [row_to_dict KPlaylistItem r] else [])).
Proof.
  eexists. split; [reflexivity|]. split; [vm_compute; discriminate|]. split; [reflexivity|].
  apply insert_playlist_item_listing; [reflexivity|vm_compute; discriminate|reflexivity].
Defined.

Definition playlist_recs : list pydict :=
  [[("id", PyJ (JStr "PL1")); ("title", PyJ (JStr "a"))];
   [("id", PyJ (JStr "PL2")); ("title", PyJ (JStr "b"))]].

Lemma db_get_all_playlists_after_inserts_witness :
  exists rows,
    mapM_exn (bind_row KPlaylist) playlist_recs = inr rows /\
    NoDup (map row_id rows) /\ Forall (fun r => row_id r <> SNull) rows /\
    exists w',
      for_in insert_playlist playlist_recs world_with_v1 = (w', inr tt) /\
      w_log w' = w_log world_with_v1 /\ w_out w' = w_out world_with_v1 /\
      db_get_all_playlists w' =
        (w', inr (map (row_to_dict KPlaylist)
                    (filter (fun r => row_id r ∉ map row_id rows) (t_playlist (w_db world_with_v1))
                     ++ rows))).
Proof.
  assert (Hnd : NoDup [SText "PL1"; SText "PL2"]).
  { apply (bool_decide_unpack _). vm_compute. exact I. }
  assert (Hnn : Forall (fun r => row_id r <> SNull)
                  [[SNull; SText "PL1"; SNull; SNull; SText "a"; SNull; SNull];
                   [SNull; SText "PL2"; SNull; SNull; SText "b"; SNull; SNull]]).
  { repeat constructor; cbn; discriminate. }
  eexists. split; [reflexivity|]. split; [exact Hnd|]. split; [exact Hnn|].
  apply db_get_all_playlists_after_inserts; [reflexivity|exact Hnd|exact Hnn].
Defined.

(** A video whose title is an [int] beyond 64 bits (parameter 3) and
    whose description is a list (parameter 4); and a playlist item whose
    etag is a dict (parameter 1). *)
Definition video_with_tags : pydict :=
  [("id", PyJ (JStr "v")); ("title", PyJ (JNum (2 ^ 63)%Z));
   ("description", PyJ (JArr [JStr "a"]))].

Definition item_with_dict_etag : pydict :=
  [("etag", PyJ (JObj [])); ("id", PyJ (JStr "i"))].

Lemma upsert_first_binding_error_witness :
  upsert KVideo video_with_tags empty_world =
    (empty_world, inl (OverflowError "Python int too large to convert to SQLite INTEGER")) /\
  upsert KPlaylistItem item_with_dict_etag empty_world =
    (empty_world, inl (ProgrammingError "Error binding parameter 1: type 'dict' is not supported")).
Proof.
  split.
  - apply (upsert_first_binding_error KVideo video_with_tags 2 "title" AText); [reflexivity| |reflexivity].
    intros j' c' a' Hlt Hj'. destruct j' as [|[|j']]; [| |lia];
      injection Hj' as <- <-; eexists; reflexivity.
  - apply (upsert_first_binding_error KPlaylistItem item_with_dict_etag 0 "etag" AText);
      [reflexivity| |reflexivity].
    intros j' c' a' Hlt. lia.
Defined.

Lemma upsert_reads_only_columns_witness :
  upsert KVideo (video_v1 "t") = upsert KVideo (("kind", PyJ (JStr "youtube#video")) :: video_v1 "t").
Proof.
  apply upsert_reads_only_columns. apply Forall_forall. vm_compute. repeat constructor.
Defined.

(** A Store holding video [v1], a playlist and one item of it pointing to
    [v1]. *)
Definition playlist_pl : pydict :=
  [("etag", PyJ (JStr "e")); ("id", PyJ (JStr "PL")); ("title", PyJ (JStr "Mix"));
   ("description", PyJ (JStr "")); ("itemCount", PyJ (JNum 1))].

Definition world_with_listing : world :=
  ((insert_playlist playlist_pl ;;; insert_playlist_item item_i1) world_with_v1).1.

Lemma print_playlist_data_output_witness :
  well_formed (w_db world_with_listing) /\ listed_videos (w_db world_with_listing) = 1%nat /\
  exists rest,
    print_playlist_data world_with_listing =
      (mkWorld (w_db world_with_listing) (w_log world_with_listing)
         (w_out world_with_listing ++
          [newline +:+ "Found 1 playlists:"; str_repeat 50 "-"] ++ rest), inr tt) /\
    length rest = 8%nat.
Proof.
  assert (Hwf : well_formed (w_db world_with_listing)).
  { intros []; vm_compute; repeat constructor. }
  split; [exact Hwf|]. split; [vm_compute; reflexivity|].
  exact (print_playlist_data_output world_with_listing Hwf).
Defined.

(** A remote that serves the first page of playlists and then fails. *)
Definition demo_api_broken (t : json) : exn + json :=
  match t with
  | JNull => inr (page_response demo_first_page (Some (JStr "t2")))
  | _ => inl (HttpError "service unavailable")
  end.

Lemma get_all_playlists_page_error_witness :
  exists recs rows,
    mapM_exn (normalize_playlist demo_fromisoformat) demo_first_page = inr recs /\
    mapM_exn (bind_row KPlaylist) recs = inr rows /\
    get_all_playlists demo_api_broken demo_fromisoformat 2 empty_world =
      (mkWorld (upsert_rows KPlaylist (w_db empty_world) rows)
               [ReqPlaylists JNull; ReqPlaylists (JStr "t2")] [],
       inl (HttpError "service unavailable")).
Proof.
  eexists _, _. split; [reflexivity|]. split; [reflexivity|].
  eapply (get_all_playlists_page_error demo_api_broken demo_fromisoformat demo_first_page []
           (JStr "t2") (HttpError "service unavailable") 2 empty_world).
  - split; [reflexivity|exact I].
  - constructor.
  - reflexivity.
  - reflexivity.
  - cbn. lia.
  - reflexivity.
  - reflexivity.
Defined.




(** X12: when the remote fails on a page token of a playlist's items,
    [get_playlist_videos] raises that error after storing the items (and
    the videos they name) of all the earlier pages. *)
Theorem get_playlist_videos_page_error api_playlist_items api_videos fromisoformat
    playlist_id its0 rest tf e fuel w :
  serves_then (api_playlist_items playlist_id) ((JNull, its0) :: rest) tf ->
  Forall (fun p => truthy p.1 = true) rest -> truthy tf = true ->
  api_playlist_items playlist_id tf = inl e ->
  S (length rest) < fuel ->
  Forall (item_ok api_videos fromisoformat playlist_id) (concat (map snd ((JNull, its0) :: rest))) ->
  get_playlist_videos api_playlist_items api_videos fromisoformat fuel playlist_id w =
    (mkWorld (foldl (fun d it => item_effect api_videos fromisoformat playlist_id it d) (w_db w)
                    (concat (map snd ((JNull, its0) :: rest))))
             (w_log w ++
              concat (map (fun p => ReqPlaylistItems playlist_id p.1 ::
                                    map (fun it => ReqVideos (item_video_id it)) p.2)
                          ((JNull, its0) :: rest)) ++
              [ReqPlaylistItems playlist_id tf])
             (w_out w),
     inl e).
Proof.
  intros Hs Ht Htf He Hf Hok. unfold get_playlist_videos.
  rewrite (paginate_error (ReqPlaylistItems playlist_id) (api_playlist_items playlist_id)
             (handle_playlist_item api_videos fromisoformat playlist_id)
             (item_ok api_videos fromisoformat playlist_id)
             (item_effect api_videos fromisoformat playlist_id)
             (fun it => [ReqVideos (item_video_id it)])
             (item_out api_videos fromisoformat)
             (handle_playlist_item_ok api_videos fromisoformat playlist_id)
             rest JNull its0 tf e fuel w Hs Ht Htf He Hf Hok).
  do 3 f_equal. apply (f_equal (fun l => l ++ _)). f_equal. apply map_ext. intros [t its].
  cbn [fst snd]. f_equal. induction its as [|it its IH]; [reflexivity|]. cbn. by rewrite IH.
Qed.

(** X13: [get_video_data] never raises and never writes the Store: it
    sends one video request and prints at most one line. *)
Theorem get_video_data_contained api_videos fromisoformat v w :
  exists w' r,
    get_video_data api_videos fromisoformat v w = (w', inr r) /\
    w_db w' = w_db w /\ w_log w' = w_log w ++ [ReqVideos (JStr v)] /\
    (length (w_out w') <= S (length (w_out w)))%nat.
Proof.
  destruct (get_video_data_spec api_videos fromisoformat v w) as (out & Hrun & Hnone & Hsome).
  rewrite Hrun. do 2 eexists. split; [reflexivity|]. cbn [w_db w_log w_out].
  split; [reflexivity|]. split; [reflexivity|]. rewrite length_app.
  destruct (video_lookup api_videos fromisoformat v) eqn:E.
  - rewrite (Hsome ltac:(eexists; reflexivity)). cbn. lia.
  - destruct (Hnone eq_refl) as (msg & -> & _). cbn. lia.
Qed.

(** A remote that serves the first page of items of a playlist and then
    fails. *)
Definition demo_items_broken (playlist_id : string) (t : json) : exn + json :=
  match t with
  | JNull => inr (page_response demo_first_items (Some (JStr "p2")))
  | _ => inl (HttpError "service unavailable")
  end.

Lemma get_playlist_videos_page_error_witness :
  Forall (item_ok demo_api_videos demo_fromisoformat "PL") demo_first_items /\
  get_playlist_videos demo_items_broken demo_api_videos demo_fromisoformat 2 "PL" empty_world =
    (mkWorld (foldl (fun d it => item_effect demo_api_videos demo_fromisoformat "PL" it d)
                    (w_db empty_world) demo_first_items)
             [ReqPlaylistItems "PL" JNull; ReqVideos (JStr "A"); ReqPlaylistItems "PL" (JStr "p2")] [],
     inl (HttpError "service unavailable")).
Proof.
  assert (Hok : Forall (item_ok demo_api_videos demo_fromisoformat "PL") demo_first_items).
  { pose proof demo_items_ok as H. cbn [concat map snd] in H.
    exact (proj1 (proj1 (Forall_app _ _ _) H)). }
  split; [exact Hok|].
  apply (get_playlist_videos_page_error demo_items_broken demo_api_videos demo_fromisoformat
           "PL" demo_first_items [] (JStr "p2") (HttpError "service unavailable") 2 empty_world).
  - split; [reflexivity|exact I].
  - constructor.
  - reflexivity.
  - reflexivity.
  - cbn. lia.
  - cbn [concat map snd]. rewrite app_nil_r. exact Hok.
Defined.

